(** * Consistent-hashing ring (main.go): model and verified properties

    The ring of [main.go] is embedded as pure Rocq functions with explicit
    state passing: a [ConsistentHash] record stands for the Go struct, and
    each method of the pointer receiver becomes a function on that record.
    Library calls of the Go program ([crypto/sha1], [strconv.Itoa],
    [sort.Slice], [sort.Search]) are given executable models so that every
    definition can be evaluated on concrete node names and keys. *)

From Stdlib Require Import ZArith List Ascii String DecimalString Sorting.Sorted.
From stdpp Require Import gmap strings list fin_maps sorting.
From Equations Require Import Equations.

Local Open Scope Z_scope.

(** ** Unsigned 32-bit words *)

Module U32.

Definition modulus : Z := 2 ^ 32.

(** Truncation to a [uint32]: every arithmetic result is reduced. *)
Definition wrap (x : Z) : Z := x mod modulus.

Definition add (x y : Z) : Z := wrap (x + y).
Definition shl (x : Z) (n : Z) : Z := wrap (Z.shiftl x n).
Definition not (x : Z) : Z := wrap (Z.lnot x).

(** [bits.RotateLeft32]. *)
Definition rotl (x : Z) (n : Z) : Z :=
  Z.lor (shl x n) (Z.shiftr x (32 - n)).

Definition in_range (x : Z) : Prop := 0 <= x < modulus.

End U32.

(** ** SHA-1 (FIPS 180-1), the digest computed by [crypto/sha1] *)

Module SHA1.

Definition chunk : nat := 64.

Definition K0 : Z := 0x5A827999.
Definition K1 : Z := 0x6ED9EBA1.
Definition K2 : Z := 0x8F1BBCDC.
Definition K3 : Z := 0xCA62C1D6.

(** Big-endian serialisation of an unsigned integer on [n] bytes. *)
Fixpoint be_bytes (n : nat) (x : Z) : list Z :=
  match n with
  | O => []
  | S n' => Z.land (Z.shiftr x (8 * Z.of_nat n')) 255 :: be_bytes n' x
  end.

(** Big-endian reading of a byte sequence. *)
Definition be_word (bs : list Z) : Z :=
  fold_left (fun acc b => Z.lor (Z.shiftl acc 8) b) bs 0.

(** Padding: a 0x80 byte, zeros up to 56 mod 64, then the bit length on
    eight bytes. *)
Definition pad (msg : list Z) : list Z :=
  let len := length msg in
  let zeros := ((119 - len mod 64) mod 64)%nat in
  msg ++ [0x80] ++ repeat 0 zeros ++ be_bytes 8 (8 * Z.of_nat len).

Fixpoint words (n : nat) (p : list Z) : list Z :=
  match n with
  | O => []
  | S n' => be_word (firstn 4 p) :: words n' (skipn 4 p)
  end.

(** Message schedule: the sixteen words of the block extended to eighty.
    The list is kept most recent word first. *)
Fixpoint schedule (n : nat) (rev_w : list Z) : list Z :=
  match n with
  | O => rev_w
  | S n' =>
      let tmp :=
        Z.lxor (Z.lxor (Z.lxor (nth 2 rev_w 0) (nth 7 rev_w 0))
                       (nth 13 rev_w 0)) (nth 15 rev_w 0) in
      schedule n' (U32.rotl tmp 1 :: rev_w)
  end.

Definition f_round (i : nat) (b c d : Z) : Z :=
  if (i <? 20)%nat then Z.lor (Z.land b c) (Z.land (U32.not b) d)
  else if (i <? 40)%nat then Z.lxor (Z.lxor b c) d
  else if (i <? 60)%nat then Z.lor (Z.land (Z.lor b c) d) (Z.land b c)
  else Z.lxor (Z.lxor b c) d.

Definition k_round (i : nat) : Z :=
  if (i <? 20)%nat then K0
  else if (i <? 40)%nat then K1
  else if (i <? 60)%nat then K2
  else K3.

Record regs := Regs { ra : Z; rb : Z; rc : Z; rd : Z; re : Z }.

Definition round (s : regs) (iw : nat * Z) : regs :=
  let (i, w) := iw in
  let t :=
    U32.add (U32.add (U32.add (U32.add (U32.rotl (ra s) 5)
                                       (f_round i (rb s) (rc s) (rd s)))
                              (re s)) w) (k_round i) in
  Regs t (ra s) (U32.rotl (rb s) 30) (rc s) (rd s).

Definition enumerate (ws : list Z) : list (nat * Z) :=
  combine (seq 0 (length ws)) ws.

(** One 64-byte block folded into the five chaining words. *)
Definition block (h : regs) (p : list Z) : regs :=
  let w := rev (schedule 64 (rev (words 16 p))) in
  let s := fold_left round (enumerate w) h in
  Regs (U32.add (ra h) (ra s)) (U32.add (rb h) (rb s))
       (U32.add (rc h) (rc s)) (U32.add (rd h) (rd s))
       (U32.add (re h) (re s)).

Fixpoint blocks (n : nat) (h : regs) (p : list Z) : regs :=
  match n with
  | O => h
  | S n' => blocks n' (block h (firstn chunk p)) (skipn chunk p)
  end.

Definition h_init : regs :=
  Regs 0x67452301 0xEFCDAB89 0x98BADCFE 0x10325476 0xC3D2E1F0.

(** [h := sha1.New(); h.Write(msg); h.Sum(nil)]: the 20-byte digest. *)
Definition Sum (msg : list Z) : list Z :=
  let p := pad msg in
  let h := blocks (length p / chunk)%nat h_init p in
  be_bytes 4 (ra h) ++ be_bytes 4 (rb h) ++ be_bytes 4 (rc h)
    ++ be_bytes 4 (rd h) ++ be_bytes 4 (re h).

End SHA1.

(** [[]byte(s)]: the bytes of a Go string. *)
Definition bytes_of_string (s : string) : list Z :=
  map (fun c => Z.of_N (N_of_ascii c)) (list_ascii_of_string s).

(** ** [hashKey] *)

Definition hashKey (key : string) : Z :=
  let hashBytes := SHA1.Sum (bytes_of_string key) in
  Z.lor (Z.lor (Z.lor (U32.shl (nth 0 hashBytes 0) 24)
                      (U32.shl (nth 1 hashBytes 0) 16))
               (U32.shl (nth 2 hashBytes 0) 8))
        (U32.wrap (nth 3 hashBytes 0)).

(** ** Library functions used by the ring *)

(** [strconv.Itoa]: decimal form of an [int], with a leading minus sign for
    negative values. *)
Definition Itoa (i : Z) : string := NilZero.string_of_int (Z.to_int i).

(** The loop of [sort.Search]: the invariant is that [f] is false below [i]
    and true from [j] on; the interval is halved at each step. *)
Equations? search_loop (f : nat -> bool) (i j : nat) : nat by wf (j - i)%nat lt :=
  search_loop f i j with decide (i < j)%nat := {
    | left _ with f ((i + j) / 2)%nat := {
        | false => search_loop f ((i + j) / 2 + 1)%nat j
        | true => search_loop f i ((i + j) / 2)%nat }
    | right _ => i }.
Proof.
  all: change (Nat.divmod (i + j) 1 0 1).1 with ((i + j) / 2)%nat;
    pose proof (Nat.div_mod_eq (i + j) 2);
    pose proof (Nat.mod_upper_bound (i + j) 2); lia.
Qed.

(** [sort.Search(n, f)]. *)
Definition Search (n : nat) (f : nat -> bool) : nat := search_loop f 0%nat n.

(** [sort.Slice(s, func(i, j) { return s[i] < s[j] })] on a slice of
    integers: the ascending rearrangement of the slice. *)
Definition sort_ascending (s : list Z) : list Z := merge_sort Z.le s.

(** The value of a Go map index expression [m[k]] with string values: the
    zero value when the key is absent. *)
Definition map_index (m : gmap Z string) (k : Z) : string :=
  default EmptyString (m !! k).

(** The indices [0, 1, ..., n-1] visited by [for i := 0; i < n; i++]. *)
Definition loop_range (n : Z) : list Z := map Z.of_nat (seq 0 (Z.to_nat n)).

(** ** The ring *)

Record ConsistentHash := mkConsistentHash {
  replicas : Z;
  hashRing : list Z;
  nodeMap : gmap Z string;
  actualNodes : gmap string bool
}.

Definition NewConsistentHash (replicas : Z) : ConsistentHash :=
  {| replicas := replicas; hashRing := []; nodeMap := ∅; actualNodes := ∅ |}.

(** [_, exists := ch.actualNodes[node]]. *)
Definition exists_node (ch : ConsistentHash) (node : string) : bool :=
  bool_decide (is_Some (actualNodes ch !! node)).

(** Body of the loop of [AddNode] for the virtual index [i]. *)
Definition add_replica (node : string) (ch : ConsistentHash) (i : Z)
  : ConsistentHash :=
  let hash := hashKey (node ++ Itoa i) in
  {| replicas := replicas ch;
     hashRing := hashRing ch ++ [hash];
     nodeMap := <[hash := node]> (nodeMap ch);
     actualNodes := actualNodes ch |}.

Definition AddNode (node : string) (ch : ConsistentHash) : ConsistentHash :=
  if exists_node ch node then ch
  else
    let ch1 :=
      {| replicas := replicas ch; hashRing := hashRing ch;
         nodeMap := nodeMap ch;
         actualNodes := <[node := true]> (actualNodes ch) |} in
    let ch2 := fold_left (add_replica node) (loop_range (replicas ch1)) ch1 in
    {| replicas := replicas ch2; hashRing := sort_ascending (hashRing ch2);
       nodeMap := nodeMap ch2; actualNodes := actualNodes ch2 |}.

(** Body of the loop of [RemoveNode]: the state is the pair of the local
    slice [newRing] and the owner map, which is modified while the old
    slice is traversed. *)
Definition remove_step (node : string) (st : list Z * gmap Z string) (hash : Z)
  : list Z * gmap Z string :=
  if decide (map_index st.2 hash ≠ node) then (st.1 ++ [hash], st.2)
  else (st.1, delete hash st.2).

Definition RemoveNode (node : string) (ch : ConsistentHash) : ConsistentHash :=
  if negb (exists_node ch node) then ch
  else
    let st := fold_left (remove_step node) (hashRing ch) ([], nodeMap ch) in
    {| replicas := replicas ch; hashRing := st.1; nodeMap := st.2;
       actualNodes := delete node (actualNodes ch) |}.

(** [ch.hashRing[i]]; every index used by [GetNode] is shown to be in range
    (lemma [GetNode_index_in_range]). *)
Definition ring_at (ring : list Z) (i : nat) : Z := nth i ring 0.

(** The index selected by [GetNode] for a hash value. *)
Definition select_index (ring : list Z) (hash : Z) : nat :=
  let idx := Search (length ring) (fun i => bool_decide (ring_at ring i >= hash)) in
  if decide (idx = length ring) then 0%nat else idx.

Definition GetNode (ch : ConsistentHash) (key : string) : string :=
  if decide (length (hashRing ch) = 0%nat) then EmptyString
  else
    let hash := hashKey key in
    let idx := select_index (hashRing ch) hash in
    map_index (nodeMap ch) (ring_at (hashRing ch) idx).

(** The demonstration of [main]. *)
Definition demo_ring : ConsistentHash :=
  AddNode "ServerC" (AddNode "ServerB" (AddNode "ServerA" (NewConsistentHash 3))).

Definition demo_keys : list string :=
  ["CellID_12345"; "CellID_67890"; "CellID_54321"; "CellID_99999"].

(** The spec's reading of a byte sequence as a big-endian unsigned integer:
    each byte is one base-256 digit, most significant first. *)
Definition be_uint32 (bs : list Z) : Z :=
  fold_left (fun acc b => acc * 256 + b) bs 0.

Definition is_byte (b : Z) : Prop := 0 <= b < 256.

(** ** Notions used to state the properties *)

(** The virtual positions that [AddNode] computes for a node, in the order
    of the loop. *)
Definition positions_of (R : Z) (node : string) : list Z :=
  map (fun i => hashKey (node ++ Itoa i)) (loop_range R).

(** The position whose owner [GetNode] returns for a hash value. *)
Definition resolve (ring : list Z) (hash : Z) : Z :=
  ring_at ring (select_index ring hash).

(** [p] is the position a hash value is mapped to on the circle: the
    smallest position at or after the hash, or the smallest position of all
    when the hash lies beyond every position. *)
Definition successor_of (ring : list Z) (hash p : Z) : Prop :=
  p ∈ ring /\
  ((hash <= p /\ forall q, q ∈ ring -> hash <= q -> p <= q) \/
   ((forall q, q ∈ ring -> q < hash) /\ forall q, q ∈ ring -> p <= q)).

Definition sorted_ring (ring : list Z) : Prop := Sorted Z.le ring.

(** Recursive presentation of the loop of [RemoveNode], used in the proofs;
    lemma [remove_loop_rec] relates it to the loop itself. *)
Fixpoint remove_rec (node : string) (ring : list Z) (m : gmap Z string)
  : list Z * gmap Z string :=
  match ring with
  | [] => ([], m)
  | hash :: ring' =>
      if decide (map_index m hash ≠ node) then
        let r := remove_rec node ring' m in (hash :: r.1, r.2)
      else remove_rec node ring' (delete hash m)
  end.

(** The owner map after the writes [nodeMap[hash] = node] of one [AddNode],
    in the order of the loop. *)
Definition insert_all (node : string) (hashes : list Z) (m : gmap Z string)
  : gmap Z string :=
  fold_left (fun m hash => <[hash := node]> m) hashes m.

(** *** Calls of the public interface *)

Inductive call : Type :=
  | Call_AddNode (node : string)
  | Call_RemoveNode (node : string)
  | Call_GetNode (key : string).

(** One call on the ring: the state it leaves and the value it returns.
    [AddNode] and [RemoveNode] return nothing; the body of [GetNode] assigns
    to no field of its receiver and to no map or slice element. *)
Definition exec (ch : ConsistentHash) (c : call) : ConsistentHash * option string :=
  match c with
  | Call_AddNode node => (AddNode node ch, None)
  | Call_RemoveNode node => (RemoveNode node ch, None)
  | Call_GetNode key => (ch, Some (GetNode ch key))
  end.

(** The ring after a sequence of calls on a fresh ring. *)
Definition run (R : Z) (calls : list call) : ConsistentHash :=
  fold_left (fun ch c => (exec ch c).1) calls (NewConsistentHash R).

(** The values returned by a sequence of calls. *)
Fixpoint outputs (ch : ConsistentHash) (calls : list call) : list (option string) :=
  match calls with
  | [] => []
  | c :: calls' => (exec ch c).2 :: outputs (exec ch c).1 calls'
  end.

(** Two nodes whose virtual names coincide: with eleven replicas, index 10
    of node "A" and index 0 of node "A1" are both named "A10". *)
Definition collided_ring : ConsistentHash :=
  run 11 [Call_AddNode "A"; Call_AddNode "A1"].

(** The collided ring after the second node is removed: the position named
    "A10" stays on the ring without an owner entry. *)
Definition orphaned_ring : ConsistentHash := RemoveNode "A1" collided_ring.

(** A ring whose only node has the empty identifier. *)
Definition unnamed_ring : ConsistentHash := AddNode EmptyString (NewConsistentHash 1).

(** *** Well-formed rings *)

(** Every position of the ring has an entry in the owner map. *)
Definition all_owned (ch : ConsistentHash) : Prop :=
  forall p, p ∈ hashRing ch -> is_Some (nodeMap ch !! p).

(** Facts that hold of every ring built by the interface, with or without
    collisions: the slice is sorted, the owner map has no entry outside the
    slice, and every recorded owner is a member. *)
Definition ring_inv (ch : ConsistentHash) : Prop :=
  sorted_ring (hashRing ch) /\
  (forall p, is_Some (nodeMap ch !! p) -> p ∈ hashRing ch) /\
  (forall p n, nodeMap ch !! p = Some n -> exists_node ch n = true).

(** A ring whose members each hold exactly their [replicas] positions and
    where no two virtual positions coincide. *)
Definition collision_free (ch : ConsistentHash) : Prop :=
  sorted_ring (hashRing ch) /\
  NoDup (hashRing ch) /\
  (forall n, exists_node ch n = true ->
     NoDup (positions_of (replicas ch) n) /\
     forall p, p ∈ positions_of (replicas ch) n ->
               p ∈ hashRing ch /\ nodeMap ch !! p = Some n) /\
  (forall p, p ∈ hashRing ch ->
     exists n, exists_node ch n = true /\ p ∈ positions_of (replicas ch) n).

(** The position has an owner entry, and the owner's identifier is not the
    empty string. *)
Definition has_named_owner (ch : ConsistentHash) (p : Z) : Prop :=
  exists n, nodeMap ch !! p = Some n /\ n <> EmptyString.

(** A ring with one node and one replica. *)
Definition single_ring : ConsistentHash := AddNode "ServerA" (NewConsistentHash 1).

(** The key is served by a position owned by [node]. *)
Definition resolves_to_node (ch : ConsistentHash) (key node : string) : Prop :=
  hashRing ch <> [] /\
  nodeMap ch !! resolve (hashRing ch) (hashKey key) = Some node.

Arguments hashKey : simpl never.
Arguments Itoa : simpl never.
Arguments sort_ascending : simpl never.

(** No position of the ring separates the two hash values: every position
    is at or after both or neither, or the first value lies beyond every
    position while the second lies at or before every position. *)
Definition same_arc (ring : list Z) (h1 h2 : Z) : Prop :=
  Forall (fun q => h1 <= q <-> h2 <= q) ring \/
  (Forall (fun q => q < h1) ring /\ Forall (fun q => h2 <= q) ring).

(** The ring of [main] before its third node is added. *)
Definition two_node_ring : ConsistentHash :=
  run 3 [Call_AddNode "ServerA"; Call_AddNode "ServerB"].

(** The computed positions of any two different nodes of the list are
    different. *)
Definition pairwise_disjoint (R : Z) (nodes : list string) : Prop :=
  Forall (fun X =>
            Forall (fun Y =>
                      X = Y \/
                      Forall (fun p => p ∉ positions_of R Y) (positions_of R X))
                   nodes)
         nodes.

(** The ring after the nodes of a list have been added one after the other. *)
Definition add_all (nodes : list string) (ch : ConsistentHash) : ConsistentHash :=
  fold_left (fun ch node => AddNode node ch) nodes ch.

(** A slice that is not sorted, as no call of the interface leaves it. *)
Definition unsorted_slice : list Z := [30; 10; 20].

(** * Properties *)

(** ** Test vectors of the digest (FIPS 180-1, appendix A) *)

Example sha1_abc :
  SHA1.Sum (bytes_of_string "abc") =
  [0xa9; 0x99; 0x3e; 0x36; 0x47; 0x06; 0x81; 0x6a; 0xba; 0x3e;
   0x25; 0x71; 0x78; 0x50; 0xc2; 0x6c; 0x9c; 0xd0; 0xd8; 0x9d].
Proof. vm_compute. reflexivity. Qed.

Example sha1_empty :
  SHA1.Sum (bytes_of_string EmptyString) =
  [0xda; 0x39; 0xa3; 0xee; 0x5e; 0x6b; 0x4b; 0x0d; 0x32; 0x55;
   0xbf; 0xef; 0x95; 0x60; 0x18; 0x90; 0xaf; 0xd8; 0x07; 0x09].
Proof. vm_compute. reflexivity. Qed.

Example sha1_two_blocks :
  SHA1.Sum (bytes_of_string
              "abcdbcdecdefdefgefghfghighijhijkijkljklmklmnlmnomnopnopq") =
  [0x84; 0x98; 0x3e; 0x44; 0x1c; 0x3b; 0xd2; 0x6e; 0xba; 0xae;
   0x4a; 0xa1; 0xf9; 0x51; 0x29; 0xe5; 0xe5; 0x46; 0x70; 0xf1].
Proof. vm_compute. reflexivity. Qed.

Example hashKey_abc : hashKey "abc" = 0xa9993e36.
Proof. vm_compute. reflexivity. Qed.

(** ** The decimal form and the search on small inputs *)

Example Itoa_examples :
  Itoa 0 = "0" /\ Itoa 7 = "7" /\ Itoa 10 = "10" /\ Itoa 2147483648 = "2147483648"
  /\ Itoa (-5) = "-5".
Proof. repeat split. Qed.

Example Search_examples :
  Search 5 (fun i => bool_decide (3 <= i)%nat) = 3%nat /\
  Search 5 (fun _ => false) = 5%nat /\
  Search 0 (fun _ => true) = 0%nat.
Proof. repeat split. Qed.

(** ** Bytes and 32-bit words *)

Section Bits.

Lemma land_255_byte x : is_byte (Z.land x 255).
Proof.
  unfold is_byte. change 255 with (Z.ones 8).
  rewrite Z.land_ones by lia. apply Z.mod_pos_bound. lia.
Qed.

Lemma be_bytes_length n x : length (SHA1.be_bytes n x) = n.
Proof. induction n; simpl; congruence. Qed.

Lemma be_bytes_byte n x : Forall is_byte (SHA1.be_bytes n x).
Proof. induction n; simpl; constructor; auto using land_255_byte. Qed.

Lemma land_shiftl_low a b n :
  0 <= n -> 0 <= b < 2 ^ n -> Z.land (Z.shiftl a n) b = 0.
Proof.
  intros Hn Hb. apply Z.bits_inj'. intros i Hi.
  rewrite Z.land_spec, Z.bits_0.
  destruct (Z.lt_ge_cases i n) as [Hlt | Hge].
  - rewrite Z.shiftl_spec_low by lia. reflexivity.
  - rewrite <- (Z.mod_small b (2 ^ n)) by lia.
    rewrite Z.mod_pow2_bits_high by lia. apply andb_false_r.
Qed.

(** When the low [n] bits of the left operand are clear, [|] is [+]. *)
Lemma lor_shifted_add a b n :
  0 <= n -> 0 <= b < 2 ^ n -> Z.lor (a * 2 ^ n) b = a * 2 ^ n + b.
Proof.
  intros Hn Hb. rewrite <- Z.shiftl_mul_pow2 by lia.
  pose proof (land_shiftl_low a b n Hn Hb) as Hdisj.
  rewrite (Z.add_nocarry_lxor _ _ Hdisj). symmetry.
  apply Z.lxor_lor, Hdisj.
Qed.

Lemma shl_byte b n :
  is_byte b -> 0 <= n <= 24 -> U32.shl b n = b * 2 ^ n.
Proof.
  unfold is_byte, U32.shl, U32.wrap, U32.modulus. intros Hb Hn.
  rewrite Z.shiftl_mul_pow2 by lia. apply Z.mod_small.
  assert (2 ^ n <= 2 ^ 24) by (apply Z.pow_le_mono_r; lia).
  change (2 ^ 24) with 16777216 in *. change (2 ^ 32) with 4294967296.
  nia.
Qed.

(** The expression of [hashKey] on four bytes is their base-256 value. *)
Lemma pack_bytes b0 b1 b2 b3 :
  is_byte b0 -> is_byte b1 -> is_byte b2 -> is_byte b3 ->
  Z.lor (Z.lor (Z.lor (U32.shl b0 24) (U32.shl b1 16)) (U32.shl b2 8))
        (U32.wrap b3)
  = be_uint32 [b0; b1; b2; b3].
Proof.
  intros H0 H1 H2 H3.
  rewrite !shl_byte by (auto; lia).
  unfold U32.wrap, U32.modulus. rewrite (Z.mod_small b3) by (unfold is_byte in *; lia).
  unfold is_byte in *. unfold be_uint32. simpl fold_left.
  pose proof (lor_shifted_add b0 (b1 * 2 ^ 16) 24) as E1.
  pose proof (lor_shifted_add (b0 * 2 ^ 8 + b1) (b2 * 2 ^ 8) 16) as E2.
  pose proof (lor_shifted_add ((b0 * 2 ^ 8 + b1) * 2 ^ 8 + b2) b3 8) as E3.
  change (2 ^ 24) with 16777216 in *. change (2 ^ 16) with 65536 in *.
  change (2 ^ 8) with 256 in *.
  rewrite E1 by lia.
  replace (b0 * 16777216 + b1 * 65536) with ((b0 * 256 + b1) * 65536) by ring.
  rewrite E2 by lia.
  replace ((b0 * 256 + b1) * 65536 + b2 * 256)
    with (((b0 * 256 + b1) * 256 + b2) * 256) by ring.
  rewrite E3 by lia. ring.
Qed.

Lemma be_uint32_bound b0 b1 b2 b3 :
  is_byte b0 -> is_byte b1 -> is_byte b2 -> is_byte b3 ->
  U32.in_range (be_uint32 [b0; b1; b2; b3]).
Proof.
  unfold is_byte, U32.in_range, U32.modulus, be_uint32. simpl.
  change (2 ^ 32) with 4294967296. lia.
Qed.

Lemma Sum_length msg : length (SHA1.Sum msg) = 20%nat.
Proof. unfold SHA1.Sum. rewrite !length_app, !be_bytes_length. reflexivity. Qed.

Lemma Sum_bytes msg : Forall is_byte (SHA1.Sum msg).
Proof. unfold SHA1.Sum. rewrite !Forall_app. auto 10 using be_bytes_byte. Qed.

Lemma hashKey_be_uint32 key :
  hashKey key = be_uint32 (take 4 (SHA1.Sum (bytes_of_string key))).
Proof.
  unfold hashKey. generalize (bytes_of_string key). intros msg.
  pose proof (Sum_bytes msg) as Hb. pose proof (Sum_length msg) as Hl.
  destruct (SHA1.Sum msg) as [|b0 [|b1 [|b2 [|b3 rest]]]]; try discriminate.
  apply Forall_cons in Hb as [H0 Hb]. apply Forall_cons in Hb as [H1 Hb].
  apply Forall_cons in Hb as [H2 Hb]. apply Forall_cons in Hb as [H3 Hb].
  simpl. apply pack_bytes; assumption.
Qed.

Lemma hashKey_range key : U32.in_range (hashKey key).
Proof.
  rewrite hashKey_be_uint32. generalize (bytes_of_string key). intros msg.
  pose proof (Sum_bytes msg) as Hb. pose proof (Sum_length msg) as Hl.
  destruct (SHA1.Sum msg) as [|b0 [|b1 [|b2 [|b3 rest]]]]; try discriminate.
  apply Forall_cons in Hb as [H0 Hb]. apply Forall_cons in Hb as [H1 Hb].
  apply Forall_cons in Hb as [H2 Hb]. apply Forall_cons in Hb as [H3 Hb].
  simpl take. apply be_uint32_bound; assumption.
Qed.

End Bits.

(** ** Binary search *)

Section BinarySearch.

Lemma half_between i j : (i < j)%nat -> (i <= (i + j) / 2 < j)%nat.
Proof.
  intros Hlt. pose proof (Nat.div_mod_eq (i + j) 2).
  pose proof (Nat.mod_upper_bound (i + j) 2). lia.
Qed.

(** One iteration of the loop of [sort.Search]. *)
Lemma search_loop_step f i j :
  search_loop f i j =
  if decide (i < j)%nat then
    if f ((i + j) / 2)%nat then search_loop f i ((i + j) / 2)%nat
    else search_loop f ((i + j) / 2 + 1)%nat j
  else i.
Proof.
  funelim (search_loop f i j).
  - rewrite decide_False by assumption. reflexivity.
  - match goal with H : f _ = true |- _ => rewrite decide_True, H by assumption end.
    reflexivity.
  - match goal with H : f _ = false |- _ => rewrite decide_True, H by assumption end.
    reflexivity.
Qed.

(** The loop stays inside the interval it is given. *)
Lemma search_loop_bounds f i j :
  (i <= j)%nat -> (i <= search_loop f i j <= j)%nat.
Proof.
  remember (j - i)%nat as d eqn:Hd. revert i j Hd.
  induction d as [d IH] using lt_wf_ind. intros i j Hd Hij.
  rewrite search_loop_step. case_decide as Hlt; [|lia].
  pose proof (half_between i j Hlt) as Hh.
  destruct (f ((i + j) / 2)%nat).
  - specialize (IH (((i + j) / 2) - i)%nat ltac:(lia) i _ eq_refl ltac:(lia)). lia.
  - specialize (IH (j - ((i + j) / 2 + 1))%nat ltac:(lia) _ j eq_refl ltac:(lia)). lia.
Qed.

(** Only the values of the predicate inside the interval are read. *)
Lemma search_loop_ext f g i j :
  (forall k, (i <= k < j)%nat -> f k = g k) ->
  search_loop f i j = search_loop g i j.
Proof.
  remember (j - i)%nat as d eqn:Hd. revert i j Hd.
  induction d as [d IH] using lt_wf_ind. intros i j Hd Hfg.
  rewrite (search_loop_step f), (search_loop_step g).
  case_decide as Hlt; [|reflexivity].
  pose proof (half_between i j Hlt) as Hh.
  rewrite <- (Hfg ((i + j) / 2)%nat) by lia.
  destruct (f ((i + j) / 2)%nat).
  - apply (IH (((i + j) / 2) - i)%nat); [lia | reflexivity |].
    intros k Hk. apply Hfg. lia.
  - apply (IH (j - ((i + j) / 2 + 1))%nat); [lia | reflexivity |].
    intros k Hk. apply Hfg. lia.
Qed.

(** On a predicate that is monotone over the interval, the loop returns
    the boundary between the false and the true values. *)
Lemma search_loop_least f i j :
  (i <= j)%nat ->
  (forall a b, (i <= a <= b)%nat -> (b < j)%nat -> f a = true -> f b = true) ->
  (forall k, (i <= k < search_loop f i j)%nat -> f k = false) /\
  (forall k, (search_loop f i j <= k < j)%nat -> f k = true).
Proof.
  remember (j - i)%nat as d eqn:Hd. revert i j Hd.
  induction d as [d IH] using lt_wf_ind. intros i j Hd Hij Hmono.
  rewrite search_loop_step. case_decide as Hlt; [|split; intros; lia].
  pose proof (half_between i j Hlt) as Hh.
  destruct (f ((i + j) / 2)%nat) eqn:Hfh.
  - destruct (IH (((i + j) / 2) - i)%nat ltac:(lia) i _ eq_refl ltac:(lia))
      as [Hlo Hhi].
    { intros a b Hab Hb. apply Hmono; lia. }
    split; [exact Hlo|]. intros k Hk.
    destruct (Nat.lt_ge_cases k ((i + j) / 2)) as [Hkh | Hkh].
    + apply Hhi. lia.
    + apply (Hmono ((i + j) / 2)%nat k); [lia | lia | exact Hfh].
  - destruct (IH (j - ((i + j) / 2 + 1))%nat ltac:(lia) _ j eq_refl ltac:(lia))
      as [Hlo Hhi].
    { intros a b Hab Hb. apply Hmono; lia. }
    split; [|exact Hhi]. intros k Hk.
    destruct (Nat.lt_ge_cases ((i + j) / 2) k) as [Hkh | Hkh].
    + apply Hlo. lia.
    + destruct (f k) eqn:Hfk; [|reflexivity].
      rewrite (Hmono k ((i + j) / 2)%nat) in Hfh; [discriminate | lia | lia | exact Hfk].
Qed.

Lemma Search_bounds n f : (Search n f <= n)%nat.
Proof. unfold Search. pose proof (search_loop_bounds f 0 n). lia. Qed.

End BinarySearch.

(** ** Selection of a position on a sorted ring *)

Section Selection.

Lemma sorted_strongly ring : sorted_ring ring -> StronglySorted Z.le ring.
Proof. apply Sorted_StronglySorted. intros x y z. apply Z.le_trans. Qed.

Lemma sorted_ring_at_mono ring a b :
  sorted_ring ring -> (a <= b)%nat -> (b < length ring)%nat ->
  ring_at ring a <= ring_at ring b.
Proof.
  intros Hs%sorted_strongly. revert a b.
  induction Hs as [|x l Hs IH Hx]; intros a b Hab Hb; simpl in *; [lia|].
  unfold ring_at in *. destruct a as [|a], b as [|b]; simpl; try lia.
  - rewrite Forall_forall in Hx. apply Hx, list_elem_of_In, nth_In. lia.
  - apply IH; lia.
Qed.

(** The index found by the search cuts a sorted ring into the positions
    below the hash and the positions at or above it. *)
Lemma search_split ring hash :
  sorted_ring ring ->
  let idx := Search (length ring) (fun i => bool_decide (ring_at ring i >= hash)) in
  (idx <= length ring)%nat /\
  Forall (fun p => p < hash) (take idx ring) /\
  Forall (fun p => hash <= p) (drop idx ring).
Proof.
  intros Hs idx. split; [apply Search_bounds|].
  destruct (search_loop_least
              (fun i => bool_decide (ring_at ring i >= hash)) 0 (length ring))
    as [Hlo Hhi]; [lia| |].
  { intros a b Hab Hb Ha. apply bool_decide_eq_true in Ha.
    apply bool_decide_eq_true.
    pose proof (sorted_ring_at_mono ring a b Hs ltac:(lia) Hb). lia. }
  fold (Search (length ring) (fun i => bool_decide (ring_at ring i >= hash))) in Hlo, Hhi.
  fold idx in Hlo, Hhi.
  split; apply Forall_lookup; intros k p Hk.
  - pose proof (lookup_lt_Some _ _ _ Hk) as Hlen. rewrite length_take in Hlen.
    rewrite lookup_take_lt in Hk by lia.
    specialize (Hlo k ltac:(lia)). apply bool_decide_eq_false in Hlo.
    unfold ring_at in Hlo. rewrite nth_lookup, Hk in Hlo. simpl in Hlo. lia.
  - rewrite lookup_drop in Hk.
    pose proof (lookup_lt_Some _ _ _ Hk) as Hlen.
    specialize (Hhi (idx + k)%nat ltac:(lia)). apply bool_decide_eq_true in Hhi.
    unfold ring_at in Hhi. rewrite nth_lookup, Hk in Hhi. simpl in Hhi. lia.
Qed.

Lemma ring_at_lookup (ring : list Z) k p : ring !! k = Some p -> ring_at ring k = p.
Proof. intros Hk. unfold ring_at. rewrite nth_lookup, Hk. reflexivity. Qed.

Lemma ring_at_elem (ring : list Z) k : (k < length ring)%nat -> ring_at ring k ∈ ring.
Proof. intros Hk. apply list_elem_of_In, nth_In, Hk. Qed.

(** Every index read by the selection is inside the slice. *)
Lemma select_index_in_range ring hash :
  ring <> [] -> (select_index ring hash < length ring)%nat.
Proof.
  intros Hne. unfold select_index.
  pose proof (Search_bounds (length ring)
                (fun i => bool_decide (ring_at ring i >= hash))) as Hb.
  destruct ring; [congruence|]. simpl length in *.
  case_decide; lia.
Qed.

Lemma resolve_elem ring hash : ring <> [] -> resolve ring hash ∈ ring.
Proof. intros Hne. apply ring_at_elem, select_index_in_range, Hne. Qed.

(** On a sorted ring the selected position is the successor of the hash
    on the circle. *)
Lemma resolve_successor ring hash :
  sorted_ring ring -> ring <> [] -> successor_of ring hash (resolve ring hash).
Proof.
  intros Hs Hne. split; [apply resolve_elem, Hne|].
  destruct (search_split ring hash Hs) as (Hb & Hlo & Hhi).
  unfold resolve, select_index.
  set (idx := Search (length ring) _) in *.
  case_decide as Hidx.
  - right. rewrite Hidx, firstn_all in Hlo. rewrite Forall_forall in Hlo.
    split; [exact Hlo|]. intros q Hq.
    apply list_elem_of_lookup in Hq as [k Hk].
    rewrite <- (ring_at_lookup _ _ _ Hk).
    apply sorted_ring_at_mono; [assumption | lia | eapply lookup_lt_Some, Hk].
  - left. assert (Hlt : (idx < length ring)%nat) by lia.
    rewrite Forall_lookup in Hlo, Hhi. split.
    + destruct (lookup_lt_is_Some_2 ring idx Hlt) as [p Hp].
      rewrite (ring_at_lookup _ _ _ Hp). apply (Hhi 0%nat).
      rewrite lookup_drop, Nat.add_0_r. exact Hp.
    + intros q Hq Hhq. apply list_elem_of_lookup in Hq as [k Hk].
      rewrite <- (ring_at_lookup _ _ _ Hk).
      apply sorted_ring_at_mono; [assumption | | eapply lookup_lt_Some, Hk].
      destruct (Nat.le_gt_cases idx k) as [|Hki]; [assumption|].
      specialize (Hlo k q). rewrite lookup_take_lt in Hlo by lia.
      specialize (Hlo Hk). lia.
Qed.

Lemma successor_unique ring hash p q :
  successor_of ring hash p -> successor_of ring hash q -> p = q.
Proof.
  intros [Hp [[Hhp Hminp] | [Hallp Hminp]]] [Hq [[Hhq Hminq] | [Hallq Hminq]]].
  - apply Z.le_antisymm; auto.
  - specialize (Hallq p Hp). lia.
  - specialize (Hallp q Hq). lia.
  - apply Z.le_antisymm; auto.
Qed.

(** The successor survives the removal of other positions. *)
Lemma successor_sub ring kept hash p :
  kept ⊆ ring -> p ∈ kept -> successor_of ring hash p -> successor_of kept hash p.
Proof.
  intros Hsub Hp [_ [[Hhp Hmin] | [Hall Hmin]]]; (split; [exact Hp|]).
  - left. split; [exact Hhp|]. intros q Hq. apply Hmin, Hsub, Hq.
  - right. split; intros q Hq; [apply Hall | apply Hmin]; apply Hsub, Hq.
Qed.

(** When the successor itself is removed, the new successor of the hash is
    the next remaining position after the removed one. *)
Lemma successor_next ring kept hash p q :
  kept ⊆ ring -> successor_of ring hash p -> successor_of kept hash q ->
  successor_of kept p q.
Proof.
  intros Hsub [Hp [[Hhp Hminp] | [Hallp Hminp]]]
         [Hq [[Hhq Hminq] | [Hallq Hminq]]]; (split; [exact Hq|]).
  - left. split; [apply Hminp; auto|]. intros s Hs Hps. apply Hminq; [assumption | lia].
  - right. split; [|exact Hminq]. intros s Hs. specialize (Hallq s Hs). lia.
  - specialize (Hallp q (Hsub _ Hq)). lia.
  - left. split; [apply Hminp, Hsub, Hq|]. intros s Hs _. apply Hminq, Hs.
Qed.

Lemma sorted_sublist ring kept :
  kept `sublist_of` ring -> sorted_ring ring -> sorted_ring kept.
Proof.
  intros Hsub Hs%sorted_strongly. apply StronglySorted_Sorted.
  induction Hsub as [|x l1 l2 Hsub IH|x l1 l2 Hsub IH].
  - constructor.
  - apply StronglySorted_inv in Hs as [Hs Hx]. constructor; [auto|].
    rewrite Forall_forall in *. intros y Hy. apply Hx. eapply elem_of_sublist; eauto.
  - apply StronglySorted_inv in Hs as [Hs Hx]. auto.
Qed.

End Selection.

(** ** The loops of [AddNode] and [RemoveNode] *)

Section Loops.

Lemma insert_all_lookup node hashes m k :
  insert_all node hashes m !! k =
  if decide (k ∈ hashes) then Some node else m !! k.
Proof.
  unfold insert_all. revert m.
  induction hashes as [|h hashes IH]; intros m; cbn [fold_left].
  - rewrite decide_False by apply not_elem_of_nil. reflexivity.
  - rewrite IH. destruct (decide (k ∈ hashes)) as [Hin | Hnin].
    + rewrite decide_True by (right; exact Hin). reflexivity.
    + destruct (decide (k = h)) as [-> | Hne].
      * rewrite decide_True by left. apply lookup_insert_eq.
      * rewrite decide_False by (rewrite elem_of_cons; tauto).
        apply lookup_insert_ne. congruence.
Qed.

Lemma add_loop node indices ch :
  fold_left (add_replica node) indices ch =
  {| replicas := replicas ch;
     hashRing := hashRing ch ++ map (fun i => hashKey (node ++ Itoa i)) indices;
     nodeMap := insert_all node (map (fun i => hashKey (node ++ Itoa i)) indices)
                           (nodeMap ch);
     actualNodes := actualNodes ch |}.
Proof.
  revert ch. induction indices as [|i indices IH]; intros ch; cbn [fold_left map].
  - rewrite app_nil_r. destruct ch; reflexivity.
  - rewrite IH. unfold add_replica, insert_all.
    cbn [replicas hashRing nodeMap actualNodes fold_left].
    rewrite <- app_assoc. reflexivity.
Qed.

(** The state written by [AddNode] for a node that is not yet a member. *)
Lemma AddNode_new node ch :
  exists_node ch node = false ->
  AddNode node ch =
  {| replicas := replicas ch;
     hashRing := sort_ascending (hashRing ch ++ positions_of (replicas ch) node);
     nodeMap := insert_all node (positions_of (replicas ch) node) (nodeMap ch);
     actualNodes := <[node := true]> (actualNodes ch) |}.
Proof.
  intros Hex. unfold AddNode. rewrite Hex, add_loop. reflexivity.
Qed.

Lemma AddNode_member node ch : exists_node ch node = true -> AddNode node ch = ch.
Proof. intros Hex. unfold AddNode. rewrite Hex. reflexivity. Qed.

Lemma remove_loop_rec node ring acc m :
  fold_left (remove_step node) ring (acc, m) =
  (acc ++ (remove_rec node ring m).1, (remove_rec node ring m).2).
Proof.
  revert acc m. induction ring as [|h ring IH]; intros acc m; simpl.
  - rewrite app_nil_r. reflexivity.
  - unfold remove_step at 2. simpl. destruct (decide (map_index m h ≠ node)).
    + rewrite IH. simpl. rewrite <- app_assoc. reflexivity.
    + rewrite IH. reflexivity.
Qed.

(** The state written by [RemoveNode] for a member. *)
Lemma RemoveNode_member node ch :
  exists_node ch node = true ->
  RemoveNode node ch =
  {| replicas := replicas ch;
     hashRing := (remove_rec node (hashRing ch) (nodeMap ch)).1;
     nodeMap := (remove_rec node (hashRing ch) (nodeMap ch)).2;
     actualNodes := delete node (actualNodes ch) |}.
Proof.
  intros Hex. unfold RemoveNode. rewrite Hex, remove_loop_rec. reflexivity.
Qed.

Lemma RemoveNode_absent node ch :
  exists_node ch node = false -> RemoveNode node ch = ch.
Proof. intros Hex. unfold RemoveNode. rewrite Hex. reflexivity. Qed.

Lemma map_index_delete_ne m (h p : Z) :
  h <> p -> map_index (delete h m) p = map_index m p.
Proof. intros Hne. unfold map_index. rewrite lookup_delete_ne by exact Hne. reflexivity. Qed.

(** The surviving positions keep their relative order. *)
Lemma remove_rec_sublist node ring m :
  (remove_rec node ring m).1 `sublist_of` ring.
Proof.
  revert m. induction ring as [|h ring IH]; intros m; simpl.
  - constructor.
  - destruct (decide (map_index m h ≠ node)); simpl.
    + apply sublist_skip, IH.
    + apply sublist_cons, IH.
Qed.

(** Owner entries are only ever deleted by the loop. *)
Lemma remove_rec_lookup_sub node ring m p x :
  (remove_rec node ring m).2 !! p = Some x -> m !! p = Some x.
Proof.
  revert m. induction ring as [|h ring IH]; intros m; simpl; [auto|].
  destruct (decide (map_index m h ≠ node)); simpl; [apply IH|].
  intros Hp%IH. apply lookup_delete_Some in Hp. tauto.
Qed.

(** The entry of a position owned by another node is untouched. *)
Lemma remove_rec_lookup_keep node ring m p :
  map_index m p <> node -> (remove_rec node ring m).2 !! p = m !! p.
Proof.
  revert m. induction ring as [|h ring IH]; intros m Hp; simpl; [reflexivity|].
  destruct (decide (map_index m h ≠ node)) as [Hh | Hh]; simpl; [apply IH, Hp|].
  assert (h <> p) by (intros ->; tauto).
  rewrite IH by (rewrite map_index_delete_ne; assumption).
  apply lookup_delete_ne. assumption.
Qed.

(** Every copy of a position owned by another node survives. *)
Lemma remove_rec_elem_keep node ring m p :
  map_index m p <> node -> p ∈ ring -> p ∈ (remove_rec node ring m).1.
Proof.
  revert m. induction ring as [|h ring IH]; intros m Hp Hin; simpl.
  - exact Hin.
  - destruct (decide (map_index m h ≠ node)) as [Hh | Hh]; simpl.
    + apply elem_of_cons in Hin as [-> | Hin]; [left | right; apply IH; assumption].
    + assert (h <> p) by (intros ->; tauto).
      apply elem_of_cons in Hin as [-> | Hin]; [congruence|].
      apply IH; [rewrite map_index_delete_ne|]; assumption.
Qed.

(** No surviving position is owned by the removed node. *)
Lemma remove_rec_not_owner node ring m q :
  q ∈ (remove_rec node ring m).1 -> (remove_rec node ring m).2 !! q <> Some node.
Proof.
  revert m. induction ring as [|h ring IH]; intros m; simpl.
  - intros Hq. apply elem_of_nil in Hq. contradiction.
  - destruct (decide (map_index m h ≠ node)) as [Hh | Hh]; simpl; [|apply IH].
    intros [-> | Hq]%elem_of_cons; [|apply IH, Hq].
    intros Hown%remove_rec_lookup_sub. apply Hh. unfold map_index.
    rewrite Hown. reflexivity.
Qed.

(** A position that still has an owner entry after the loop is on the new
    ring. *)
Lemma remove_rec_owned_elem node ring m p :
  p ∈ ring -> is_Some ((remove_rec node ring m).2 !! p) ->
  p ∈ (remove_rec node ring m).1.
Proof.
  revert m. induction ring as [|h ring IH]; intros m Hin; simpl.
  - apply elem_of_nil in Hin. contradiction.
  - destruct (decide (map_index m h ≠ node)) as [Hh | Hh]; simpl.
    + apply elem_of_cons in Hin as [-> | Hin]; [left | right; apply IH; assumption].
    + intros [x Hx]. apply elem_of_cons in Hin as [-> | Hin].
      * apply remove_rec_lookup_sub in Hx. rewrite lookup_delete_eq in Hx. discriminate.
      * apply IH; [assumption | eexists; exact Hx].
Qed.

(** On a ring without collisions the loop of [RemoveNode] keeps exactly the
    positions of the other nodes. *)
Lemma remove_rec_kept_owner node ring m p :
  NoDup ring -> p ∈ (remove_rec node ring m).1 -> map_index m p <> node.
Proof.
  revert m. induction ring as [|h ring IH]; intros m Hnd; cbn [remove_rec].
  - intros Hp. apply elem_of_nil in Hp. contradiction.
  - apply NoDup_cons in Hnd as [Hh Hnd].
    destruct (decide (map_index m h ≠ node)) as [Hown | Hown]; cbn [fst].
    + intros [-> | Hp]%elem_of_cons; [exact Hown | apply IH; assumption].
    + intros Hp. pose proof (IH _ Hnd Hp) as Hne.
      rewrite map_index_delete_ne in Hne; [exact Hne|].
      intros ->. apply Hh. eapply elem_of_sublist; [exact Hp | apply remove_rec_sublist].
Qed.

End Loops.

(** ** Lookup *)

Section Lookup.

Lemma GetNode_empty ch key : hashRing ch = [] -> GetNode ch key = EmptyString.
Proof. intros He. unfold GetNode. rewrite He. reflexivity. Qed.

Lemma GetNode_resolve ch key :
  hashRing ch <> [] ->
  GetNode ch key = map_index (nodeMap ch) (resolve (hashRing ch) (hashKey key)).
Proof.
  intros Hne. unfold GetNode. rewrite decide_False; [reflexivity|].
  destruct (hashRing ch); [congruence | discriminate].
Qed.

(** Go would stop with an index error on an out-of-range read; the index
    passed to [ch.hashRing[idx]] is always inside the slice, and the search
    reads the slice only inside it as well. *)
Lemma GetNode_index_in_range ch key :
  hashRing ch <> [] ->
  (select_index (hashRing ch) (hashKey key) < length (hashRing ch))%nat.
Proof. apply select_index_in_range. Qed.

Lemma Search_reads_in_range n f g :
  (forall k, (k < n)%nat -> f k = g k) -> Search n f = Search n g.
Proof. intros Hfg. apply search_loop_ext. intros k Hk. apply Hfg. lia. Qed.

End Lookup.

(** ** Sortedness *)

Section Sortedness.

Lemma sort_ascending_sorted l : sorted_ring (sort_ascending l).
Proof.
  unfold sorted_ring, sort_ascending. apply Sorted_merge_sort.
  intros x y. lia.
Qed.

Lemma sort_ascending_perm l : sort_ascending l ≡ₚ l.
Proof. apply merge_sort_Permutation. Qed.

Lemma sorted_ring_unique l1 l2 :
  sorted_ring l1 -> sorted_ring l2 -> l1 ≡ₚ l2 -> l1 = l2.
Proof.
  intros H1 H2 Hp.
  apply (Sorted_unique_strong Z.le); try assumption.
  intros x y _ _. apply Z.le_antisymm.
Qed.

Lemma NewConsistentHash_sorted R : sorted_ring (hashRing (NewConsistentHash R)).
Proof. constructor. Qed.

Lemma AddNode_sorted node ch :
  sorted_ring (hashRing ch) -> sorted_ring (hashRing (AddNode node ch)).
Proof.
  intros Hs. destruct (exists_node ch node) eqn:Hex.
  - rewrite AddNode_member by exact Hex. exact Hs.
  - rewrite AddNode_new by exact Hex. apply sort_ascending_sorted.
Qed.

Lemma RemoveNode_sublist node ch :
  hashRing (RemoveNode node ch) `sublist_of` hashRing ch.
Proof.
  destruct (exists_node ch node) eqn:Hex.
  - rewrite RemoveNode_member by exact Hex. apply remove_rec_sublist.
  - rewrite RemoveNode_absent by exact Hex. reflexivity.
Qed.

Lemma RemoveNode_sorted node ch :
  sorted_ring (hashRing ch) -> sorted_ring (hashRing (RemoveNode node ch)).
Proof. apply sorted_sublist, RemoveNode_sublist. Qed.

Lemma exec_sorted ch c :
  sorted_ring (hashRing ch) -> sorted_ring (hashRing (exec ch c).1).
Proof.
  destruct c; simpl; auto using AddNode_sorted, RemoveNode_sorted.
Qed.

Lemma fold_exec_sorted calls ch :
  sorted_ring (hashRing ch) ->
  sorted_ring (hashRing (fold_left (fun ch c => (exec ch c).1) calls ch)).
Proof.
  revert ch. induction calls as [|c calls IH]; intros ch Hs; simpl; [exact Hs|].
  apply IH, exec_sorted, Hs.
Qed.

Lemma run_sorted R calls : sorted_ring (hashRing (run R calls)).
Proof. apply fold_exec_sorted, NewConsistentHash_sorted. Qed.

End Sortedness.

(** ** Lookup after a removal *)

Section Removal.

(** A key served by a position that the removal leaves alone is served by
    the same position, with the same owner entry, afterwards. *)
Lemma RemoveNode_keeps_other node ch key :
  sorted_ring (hashRing ch) -> hashRing ch <> [] ->
  map_index (nodeMap ch) (resolve (hashRing ch) (hashKey key)) <> node ->
  GetNode (RemoveNode node ch) key = GetNode ch key.
Proof.
  intros Hs Hne Hown. destruct (exists_node ch node) eqn:Hex;
    [|rewrite RemoveNode_absent by exact Hex; reflexivity].
  rewrite RemoveNode_member by exact Hex.
  set (p := resolve (hashRing ch) (hashKey key)) in *.
  pose proof (resolve_elem _ (hashKey key) Hne) as Hp. fold p in Hp.
  pose proof (remove_rec_elem_keep node _ _ p Hown Hp) as Hkept.
  pose proof (remove_rec_sublist node (hashRing ch) (nodeMap ch)) as Hsub.
  assert (Hne' : (remove_rec node (hashRing ch) (nodeMap ch)).1 <> []).
  { intros He. rewrite He in Hkept. apply elem_of_nil in Hkept. exact Hkept. }
  rewrite (GetNode_resolve ch) by exact Hne. fold p.
  rewrite GetNode_resolve by exact Hne'. cbn [hashRing nodeMap].
  assert (Hres : resolve (remove_rec node (hashRing ch) (nodeMap ch)).1 (hashKey key) = p).
  { apply (successor_unique (remove_rec node (hashRing ch) (nodeMap ch)).1 (hashKey key)).
    - apply resolve_successor; [eapply sorted_sublist; eassumption | exact Hne'].
    - apply (successor_sub (hashRing ch)); [apply sublist_subseteq, Hsub | exact Hkept |].
      apply resolve_successor; assumption. }
  rewrite Hres. unfold map_index at 1.
  rewrite remove_rec_lookup_keep by exact Hown. reflexivity.
Qed.

(** After a member with a non-empty name is removed, no lookup returns it. *)
Lemma RemoveNode_never_returns node ch key :
  exists_node ch node = true -> node <> EmptyString ->
  GetNode (RemoveNode node ch) key <> node.
Proof.
  intros Hex Hname. rewrite RemoveNode_member by exact Hex.
  set (r := remove_rec node (hashRing ch) (nodeMap ch)).
  destruct (decide (r.1 = [])) as [He | Hne].
  - rewrite GetNode_empty by exact He. congruence.
  - rewrite GetNode_resolve by exact Hne. cbn [hashRing nodeMap].
    pose proof (resolve_elem _ (hashKey key) Hne) as Hq.
    apply remove_rec_not_owner in Hq. fold r in Hq. unfold map_index.
    destruct (r.2 !! resolve r.1 (hashKey key)) as [n|]; simpl; congruence.
Qed.

(** The position that serves a key after a removal is the next remaining
    position after the one that served it before. *)
Lemma RemoveNode_next node ch key :
  sorted_ring (hashRing ch) -> hashRing ch <> [] ->
  hashRing (RemoveNode node ch) <> [] ->
  successor_of (hashRing (RemoveNode node ch))
               (resolve (hashRing ch) (hashKey key))
               (resolve (hashRing (RemoveNode node ch)) (hashKey key)).
Proof.
  intros Hs Hne Hne'.
  apply (successor_next (hashRing ch) _ (hashKey key)).
  - apply sublist_subseteq, RemoveNode_sublist.
  - apply resolve_successor; assumption.
  - apply resolve_successor; [apply RemoveNode_sorted, Hs | exact Hne'].
Qed.

End Removal.

(** * The properties of the specification *)

(** ** Successor lookup *)

(** C1. On a ring with at least one position, kept sorted, [GetNode key]
    returns the owner-map entry of the smallest position that is greater
    than or equal to [hashKey key]; when every position is below the hash it
    returns the entry of the first, smallest, position. *)
Theorem lookup_returns_successor_owner (ch : ConsistentHash) (key : string) :
  sorted_ring (hashRing ch) ->
  hashRing ch <> [] ->
  exists p,
    successor_of (hashRing ch) (hashKey key) p /\
    GetNode ch key = map_index (nodeMap ch) p /\
    (forall n, nodeMap ch !! p = Some n -> GetNode ch key = n) /\
    ((forall q, q ∈ hashRing ch -> q < hashKey key) -> hashRing ch !! 0%nat = Some p).
Proof.
  intros Hs Hne. exists (resolve (hashRing ch) (hashKey key)).
  pose proof (resolve_successor _ (hashKey key) Hs Hne) as Hsucc.
  split; [exact Hsucc|]. split; [apply GetNode_resolve, Hne|]. split.
  - intros n Hn. rewrite GetNode_resolve by exact Hne. unfold map_index.
    rewrite Hn. reflexivity.
  - intros Hall. destruct (hashRing ch) as [|x ring] eqn:Hring; [congruence|].
    simpl. f_equal. destruct Hsucc as [Hp [[Hge _] | [_ Hmin]]].
    + specialize (Hall _ Hp). lia.
    + apply Z.le_antisymm.
      * apply sorted_strongly, StronglySorted_inv in Hs as [_ Hx].
        apply elem_of_cons in Hp as [-> | Hp]; [lia|].
        rewrite Forall_forall in Hx. apply Hx, Hp.
      * apply Hmin. left.
Qed.

Lemma lookup_returns_successor_owner_witness :
  sorted_ring (hashRing demo_ring) /\
  hashRing demo_ring <> [] /\
  exists p,
    successor_of (hashRing demo_ring) (hashKey "CellID_12345") p /\
    GetNode demo_ring "CellID_12345" = map_index (nodeMap demo_ring) p /\
    (forall n, nodeMap demo_ring !! p = Some n -> GetNode demo_ring "CellID_12345" = n) /\
    ((forall q, q ∈ hashRing demo_ring -> q < hashKey "CellID_12345") ->
     hashRing demo_ring !! 0%nat = Some p).
Proof.
  assert (Hs : sorted_ring (hashRing demo_ring)).
  { unfold sorted_ring. apply (bool_decide_unpack _). vm_compute. reflexivity. }
  assert (Hne : hashRing demo_ring <> []).
  { assert (Hlen : length (hashRing demo_ring) = 9%nat) by (vm_compute; reflexivity).
    intros He. rewrite He in Hlen. discriminate Hlen. }
  split; [exact Hs|]. split; [exact Hne|].
  exact (lookup_returns_successor_owner demo_ring "CellID_12345" Hs Hne).
Defined.

(** The assignments printed by [main] before the removal. *)
Example demo_assignments :
  map (GetNode demo_ring) demo_keys = ["ServerC"; "ServerC"; "ServerB"; "ServerA"].
Proof. vm_compute. reflexivity. Qed.

(** ** Idempotent membership *)

Lemma AddNode_exists node ch : exists_node (AddNode node ch) node = true.
Proof.
  destruct (exists_node ch node) eqn:Hex.
  - rewrite AddNode_member; assumption.
  - rewrite AddNode_new by exact Hex. unfold exists_node. cbn [actualNodes].
    apply bool_decide_eq_true. rewrite lookup_insert_eq. eauto.
Qed.

(** C4. Calling [AddNode X] twice in a row leaves exactly the state that one
    call leaves (same slice, same owner map, same membership map): after the
    first call [X] is a member and the second call returns at once. *)
Theorem add_node_idempotent (ch : ConsistentHash) (X : string) :
  exists_node (AddNode X ch) X = true /\
  AddNode X (AddNode X ch) = AddNode X ch.
Proof.
  split; [apply AddNode_exists|]. apply AddNode_member, AddNode_exists.
Qed.

(** ** Adding a node *)

Lemma positions_of_length R node : length (positions_of R node) = Z.to_nat R.
Proof. unfold positions_of, loop_range. rewrite !length_map, length_seq. reflexivity. Qed.

Lemma positions_of_lookup R node i :
  0 <= i < R ->
  positions_of R node !! Z.to_nat i = Some (hashKey (node ++ Itoa i)).
Proof.
  intros Hi. unfold positions_of, loop_range.
  rewrite !list_lookup_fmap, lookup_seq_lt by lia. simpl.
  rewrite Z2Nat.id by lia. reflexivity.
Qed.

(** C5. For a node that is not a member, [AddNode] appends [replicas]
    positions (none when the field is not positive), the [i]-th being
    [hashKey] of the identifier followed by the decimal form of [i], records
    the node as owner of each of them, marks the node as a member and sorts
    the slice once, after the loop.  A computed position that was already on
    the ring gets the new node as owner, and the slice then holds the value
    more than once. *)
Theorem add_node_effect (ch : ConsistentHash) (node : string) :
  exists_node ch node = false ->
  length (positions_of (replicas ch) node) = Z.to_nat (replicas ch) /\
  (forall i, 0 <= i < replicas ch ->
     positions_of (replicas ch) node !! Z.to_nat i = Some (hashKey (node ++ Itoa i))) /\
  hashRing (AddNode node ch)
    = sort_ascending (hashRing ch ++ positions_of (replicas ch) node) /\
  hashRing (AddNode node ch) ≡ₚ hashRing ch ++ positions_of (replicas ch) node /\
  length (hashRing (AddNode node ch))
    = (length (hashRing ch) + Z.to_nat (replicas ch))%nat /\
  (forall p, p ∈ positions_of (replicas ch) node ->
     nodeMap (AddNode node ch) !! p = Some node) /\
  (forall p, p ∉ positions_of (replicas ch) node ->
     nodeMap (AddNode node ch) !! p = nodeMap ch !! p) /\
  actualNodes (AddNode node ch) = <[node := true]> (actualNodes ch) /\
  replicas (AddNode node ch) = replicas ch /\
  (forall p, p ∈ hashRing ch -> p ∈ positions_of (replicas ch) node ->
     nodeMap (AddNode node ch) !! p = Some node /\
     ~ NoDup (hashRing (AddNode node ch))).
Proof.
  intros Hex. rewrite AddNode_new by exact Hex. cbn [hashRing nodeMap actualNodes replicas].
  split; [apply positions_of_length|].
  split; [intros i Hi; apply positions_of_lookup, Hi|].
  split; [reflexivity|].
  split; [apply sort_ascending_perm|].
  split.
  { rewrite sort_ascending_perm, length_app, positions_of_length. reflexivity. }
  split.
  { intros p Hp. rewrite insert_all_lookup, decide_True by exact Hp. reflexivity. }
  split.
  { intros p Hp. rewrite insert_all_lookup, decide_False by exact Hp. reflexivity. }
  split; [reflexivity|]. split; [reflexivity|].
  intros p Hring Hp. split.
  - rewrite insert_all_lookup, decide_True by exact Hp. reflexivity.
  - rewrite sort_ascending_perm. intros Hnd.
    apply NoDup_app in Hnd as (_ & Hdisj & _). exact (Hdisj p Hring Hp).
Qed.

Lemma add_node_effect_witness :
  exists_node (NewConsistentHash 3) "ServerA" = false /\
  hashRing (AddNode "ServerA" (NewConsistentHash 3))
    = sort_ascending (hashRing (NewConsistentHash 3)
                        ++ positions_of (replicas (NewConsistentHash 3)) "ServerA") /\
  actualNodes (AddNode "ServerA" (NewConsistentHash 3))
    = <["ServerA" := true]> (actualNodes (NewConsistentHash 3)).
Proof.
  assert (Hex : exists_node (NewConsistentHash 3) "ServerA" = false) by reflexivity.
  split; [exact Hex|].
  pose proof (add_node_effect (NewConsistentHash 3) "ServerA" Hex)
    as (_ & _ & Hring & _ & _ & _ & _ & Hmem & _).
  split; [exact Hring | exact Hmem].
Defined.

(** The three positions of the first node of [main]. *)
Example positions_of_ServerA :
  positions_of 3 "ServerA" = [3162231355; 2680482646; 14315101].
Proof. vm_compute. reflexivity. Qed.

(** With eleven replicas, the nodes "A" and "A1" both compute the position
    of the name "A10". *)
Example collision_overwrites_owner :
  hashKey ("A" ++ Itoa 10) = hashKey ("A1" ++ Itoa 0) /\
  length (hashRing collided_ring) = 22%nat /\
  ~ NoDup (hashRing collided_ring) /\
  nodeMap collided_ring !! hashKey "A10" = Some "A1".
Proof.
  split; [reflexivity|]. split; [vm_compute; reflexivity|]. split.
  - apply (bool_decide_unpack _). vm_compute. reflexivity.
  - vm_compute. reflexivity.
Qed.

(** ** The slice stays sorted *)

(** C6. The position slice is sorted ascending in the fresh ring and after
    every sequence of [AddNode], [RemoveNode] and [GetNode] calls.
    [RemoveNode] does not sort: the slice it leaves is a subsequence of the
    one it was given, in the same relative order, and so is sorted too. *)
Theorem ring_always_sorted (R : Z) (calls : list call) (node : string) :
  sorted_ring (hashRing (NewConsistentHash R)) /\
  sorted_ring (hashRing (run R calls)) /\
  sorted_ring (hashRing (AddNode node (run R calls))) /\
  sorted_ring (hashRing (RemoveNode node (run R calls))) /\
  (forall ch, hashRing (RemoveNode node ch) `sublist_of` hashRing ch).
Proof.
  split; [apply NewConsistentHash_sorted|].
  split; [apply run_sorted|].
  split; [apply AddNode_sorted, run_sorted|].
  split; [apply RemoveNode_sorted, run_sorted|].
  intros ch. apply RemoveNode_sublist.
Qed.

(** The slice of [main] before and after the removal of "ServerB". *)
Example demo_ring_positions :
  hashRing demo_ring =
    [14315101; 442054020; 613571882; 1354652122; 2433757126; 2680482646;
     3162231355; 3642796969; 3791699533] /\
  hashRing (RemoveNode "ServerB" demo_ring) =
    [14315101; 442054020; 613571882; 2680482646; 3162231355; 3791699533].
Proof. split; vm_compute; reflexivity. Qed.

(** ** The hash function *)

(** C8. [hashKey] is a function of its argument alone: the first four bytes
    of the SHA-1 digest of the string, read as a big-endian unsigned 32-bit
    integer.  The same function places the lookup keys ([GetNode]) and the
    virtual positions of the nodes ([AddNode]) on the ring. *)
Theorem hash_is_sha1_prefix (key : string) :
  length (SHA1.Sum (bytes_of_string key)) = 20%nat /\
  Forall is_byte (SHA1.Sum (bytes_of_string key)) /\
  hashKey key = be_uint32 (take 4 (SHA1.Sum (bytes_of_string key))) /\
  U32.in_range (hashKey key) /\
  (forall ch,
     GetNode ch key =
     if decide (length (hashRing ch) = 0%nat) then EmptyString
     else map_index (nodeMap ch) (resolve (hashRing ch) (hashKey key))) /\
  (forall ch node,
     hashRing (AddNode node ch) =
     if exists_node ch node then hashRing ch
     else sort_ascending
            (hashRing ch
               ++ map (fun i => hashKey (node ++ Itoa i)) (loop_range (replicas ch)))).
Proof.
  split; [apply Sum_length|]. split; [apply Sum_bytes|].
  split; [apply hashKey_be_uint32|]. split; [apply hashKey_range|].
  split; [reflexivity|].
  intros ch node. destruct (exists_node ch node) eqn:Hex.
  - rewrite AddNode_member by exact Hex. reflexivity.
  - rewrite AddNode_new by exact Hex. reflexivity.
Qed.

(** ** Lookup is read-only *)

Lemma fold_lookups_state keys ch :
  fold_left (fun ch c => (exec ch c).1) (map Call_GetNode keys) ch = ch.
Proof. induction keys as [|k keys IH]; simpl; [reflexivity | exact IH]. Qed.

Lemma outputs_lookups keys ch :
  outputs ch (map Call_GetNode keys) = map (fun k => Some (GetNode ch k)) keys.
Proof. induction keys as [|k keys IH]; simpl; [reflexivity | f_equal; exact IH]. Qed.

(** C9. A [GetNode] call leaves every field of the ring as it found it, so
    does any sequence of them, and on a given ring state two calls with the
    same key return the same identifier.  The result is read off the slice
    and the owner map only. *)
Theorem lookup_is_read_only (ch : ConsistentHash) (keys : list string) (key : string) :
  (exec ch (Call_GetNode key)).1 = ch /\
  fold_left (fun ch c => (exec ch c).1) (map Call_GetNode keys) ch = ch /\
  outputs ch (map Call_GetNode keys) = map (fun k => Some (GetNode ch k)) keys /\
  (exec (exec ch (Call_GetNode key)).1 (Call_GetNode key)).2
    = (exec ch (Call_GetNode key)).2 /\
  (forall R members,
     GetNode {| replicas := R; hashRing := hashRing ch; nodeMap := nodeMap ch;
                actualNodes := members |} key
     = GetNode ch key).
Proof.
  split; [reflexivity|]. split; [apply fold_lookups_state|].
  split; [apply outputs_lookups|]. split; reflexivity.
Qed.

(** ** Empty results *)

(** C7, as amended.  On a ring without positions [GetNode] returns the empty
    string.  On a ring where every position has an owner entry with a
    non-empty identifier, it returns the empty string only when the ring has
    no position. *)
Theorem lookup_empty_iff_no_positions (ch : ConsistentHash) (key : string) :
  (forall p, p ∈ hashRing ch -> has_named_owner ch p) ->
  (GetNode ch key = EmptyString <-> hashRing ch = []).
Proof.
  intros Hown. split; [|apply GetNode_empty].
  intros Hget. destruct (decide (hashRing ch = [])) as [He | Hne]; [exact He|].
  exfalso. rewrite GetNode_resolve in Hget by exact Hne.
  destruct (Hown _ (resolve_elem _ (hashKey key) Hne)) as (n & Hn & Hname).
  unfold map_index in Hget. rewrite Hn in Hget. simpl in Hget. congruence.
Qed.

Lemma lookup_empty_iff_no_positions_witness :
  (forall p, p ∈ hashRing single_ring -> has_named_owner single_ring p) /\
  (GetNode single_ring "CellID_12345" = EmptyString <-> hashRing single_ring = []).
Proof.
  assert (Hown : forall p, p ∈ hashRing single_ring -> has_named_owner single_ring p).
  { assert (Hring : hashRing single_ring = [3162231355]) by (vm_compute; reflexivity).
    intros p Hp. rewrite Hring in Hp. apply list_elem_of_singleton in Hp. subst p.
    exists "ServerA". split; [vm_compute; reflexivity | discriminate]. }
  split; [exact Hown|].
  exact (lookup_empty_iff_no_positions single_ring "CellID_12345" Hown).
Defined.

(** C7, as stated, fails on a node whose identifier is the empty string:
    the ring has a member, a positive replica count and one position, and
    the lookup still returns the empty string. *)
Lemma empty_name_hides_positions :
  replicas unnamed_ring = 1 /\
  exists_node unnamed_ring EmptyString = true /\
  hashRing unnamed_ring = [3059261382] /\
  GetNode unnamed_ring "CellID_12345" = EmptyString.
Proof.
  split; [vm_compute; reflexivity|]. split; [vm_compute; reflexivity|].
  split; vm_compute; reflexivity.
Qed.

(** After a collision, [RemoveNode] drops one copy of the shared position
    and deletes its owner entry; the other copy stays on the ring, and the
    keys it serves get the empty string although a node is still a member. *)
Example orphaned_position :
  exists_node orphaned_ring "A" = true /\
  hashKey "A10" ∈ hashRing orphaned_ring /\
  nodeMap orphaned_ring !! hashKey "A10" = None /\
  GetNode orphaned_ring "A10" = EmptyString.
Proof.
  split; [vm_compute; reflexivity|]. split.
  - apply (bool_decide_unpack _). vm_compute. reflexivity.
  - split; vm_compute; reflexivity.
Qed.

(** ** Removal *)

(** C3, as amended.  On a sorted ring, after [RemoveNode X] of a member [X]:
    if [X] is not the empty string, no lookup returns [X]; and a key that was
    served by a position removed with [X] is served by the next remaining
    position clockwise (the smallest remaining position at or after the
    removed one, else the smallest remaining position) when a position
    remains, and gets the empty string when none remains. *)
Theorem removal_correctness (ch : ConsistentHash) (X key : string) :
  sorted_ring (hashRing ch) ->
  exists_node ch X = true ->
  (X <> EmptyString -> GetNode (RemoveNode X ch) key <> X) /\
  (hashRing ch <> [] ->
   map_index (nodeMap ch) (resolve (hashRing ch) (hashKey key)) = X ->
   (hashRing (RemoveNode X ch) = [] -> GetNode (RemoveNode X ch) key = EmptyString) /\
   (hashRing (RemoveNode X ch) <> [] ->
    successor_of (hashRing (RemoveNode X ch))
                 (resolve (hashRing ch) (hashKey key))
                 (resolve (hashRing (RemoveNode X ch)) (hashKey key)) /\
    GetNode (RemoveNode X ch) key
    = map_index (nodeMap (RemoveNode X ch))
                (resolve (hashRing (RemoveNode X ch)) (hashKey key)) /\
    (NoDup (hashRing ch) ->
     resolve (hashRing (RemoveNode X ch)) (hashKey key)
     <> resolve (hashRing ch) (hashKey key)))).
Proof.
  intros Hs Hex. split; [apply RemoveNode_never_returns, Hex|].
  intros Hne Hown. split; [apply GetNode_empty|].
  intros Hne'. split; [apply RemoveNode_next; assumption|].
  split; [apply GetNode_resolve, Hne'|].
  intros Hnd Heq. pose proof (resolve_elem _ (hashKey key) Hne') as Hq.
  rewrite Heq, RemoveNode_member in Hq by exact Hex. cbn [hashRing] in Hq.
  exact (remove_rec_kept_owner X _ _ _ Hnd Hq Hown).
Qed.

Lemma removal_correctness_witness :
  sorted_ring (hashRing demo_ring) /\
  exists_node demo_ring "ServerB" = true /\
  map_index (nodeMap demo_ring) (resolve (hashRing demo_ring) (hashKey "CellID_54321"))
    = "ServerB" /\
  GetNode (RemoveNode "ServerB" demo_ring) "CellID_54321" <> "ServerB" /\
  successor_of (hashRing (RemoveNode "ServerB" demo_ring))
               (resolve (hashRing demo_ring) (hashKey "CellID_54321"))
               (resolve (hashRing (RemoveNode "ServerB" demo_ring)) (hashKey "CellID_54321")).
Proof.
  assert (Hs : sorted_ring (hashRing demo_ring)).
  { unfold sorted_ring. apply (bool_decide_unpack _). vm_compute. reflexivity. }
  assert (Hex : exists_node demo_ring "ServerB" = true) by (vm_compute; reflexivity).
  assert (Hown : map_index (nodeMap demo_ring)
                   (resolve (hashRing demo_ring) (hashKey "CellID_54321")) = "ServerB")
    by (vm_compute; reflexivity).
  assert (Hne : hashRing demo_ring <> []).
  { assert (Hlen : length (hashRing demo_ring) = 9%nat) by (vm_compute; reflexivity).
    intros He. rewrite He in Hlen. discriminate Hlen. }
  assert (Hne' : hashRing (RemoveNode "ServerB" demo_ring) <> []).
  { assert (Hlen : length (hashRing (RemoveNode "ServerB" demo_ring)) = 6%nat)
      by (vm_compute; reflexivity).
    intros He. rewrite He in Hlen. discriminate Hlen. }
  destruct (removal_correctness demo_ring "ServerB" "CellID_54321" Hs Hex)
    as [Hnever Hnext].
  destruct (Hnext Hne Hown) as [_ Hsucc].
  split; [exact Hs|]. split; [exact Hex|]. split; [exact Hown|].
  split; [apply Hnever; discriminate | apply (Hsucc Hne')].
Defined.

(** C3, as stated, fails for a member whose identifier is the empty string:
    after its removal no position remains for the keys it served, and the
    lookup returns the empty string, which is the identifier removed. *)
Lemma empty_name_returned_after_removal :
  sorted_ring (hashRing unnamed_ring) /\
  exists_node unnamed_ring EmptyString = true /\
  GetNode unnamed_ring "CellID_12345" = EmptyString /\
  hashRing (RemoveNode EmptyString unnamed_ring) = [] /\
  GetNode (RemoveNode EmptyString unnamed_ring) "CellID_12345" = EmptyString.
Proof.
  split.
  - unfold sorted_ring. apply (bool_decide_unpack _). vm_compute. reflexivity.
  - split; [vm_compute; reflexivity|]. split; [vm_compute; reflexivity|].
    split; vm_compute; reflexivity.
Qed.

(** The assignments printed by [main] after "ServerB" is removed. *)
Example demo_assignments_after :
  map (GetNode (RemoveNode "ServerB" demo_ring)) demo_keys
  = ["ServerC"; "ServerC"; "ServerA"; "ServerA"].
Proof. vm_compute. reflexivity. Qed.

(** ** Facts that hold of every ring built by the interface *)

Section Invariant.

Lemma exists_node_true ch n :
  exists_node ch n = true <-> is_Some (actualNodes ch !! n).
Proof. unfold exists_node. apply bool_decide_eq_true. Qed.

Lemma exists_node_false ch n :
  exists_node ch n = false <-> actualNodes ch !! n = None.
Proof.
  unfold exists_node. rewrite bool_decide_eq_false, eq_None_not_Some. reflexivity.
Qed.

Lemma ring_inv_New R : ring_inv (NewConsistentHash R).
Proof.
  split; [constructor|]. split.
  - intros p [x Hx]. simpl in Hx. rewrite lookup_empty in Hx. discriminate.
  - intros p n Hn. simpl in Hn. rewrite lookup_empty in Hn. discriminate.
Qed.

Lemma ring_inv_AddNode node ch : ring_inv ch -> ring_inv (AddNode node ch).
Proof.
  intros (Hs & Hdom & Hown). destruct (exists_node ch node) eqn:Hex.
  { rewrite AddNode_member by exact Hex. repeat split; assumption. }
  rewrite AddNode_new by exact Hex. split; [apply sort_ascending_sorted|].
  cbn [hashRing nodeMap]. split.
  - intros p Hp. rewrite sort_ascending_perm, elem_of_app.
    rewrite insert_all_lookup in Hp. case_decide; [right; assumption | left; auto].
  - intros p n Hn. apply exists_node_true. cbn [actualNodes].
    rewrite insert_all_lookup in Hn. rewrite lookup_insert_is_Some.
    case_decide; [left; congruence|].
    destruct (decide (node = n)); [left; assumption | right].
    split; [assumption|]. apply exists_node_true, (Hown p), Hn.
Qed.

Lemma ring_inv_RemoveNode node ch : ring_inv ch -> ring_inv (RemoveNode node ch).
Proof.
  intros (Hs & Hdom & Hown). destruct (exists_node ch node) eqn:Hex;
    [|rewrite RemoveNode_absent by exact Hex; repeat split; assumption].
  rewrite RemoveNode_member by exact Hex. cbn [hashRing nodeMap].
  assert (Hdom' : forall p, is_Some ((remove_rec node (hashRing ch) (nodeMap ch)).2 !! p) ->
                            p ∈ (remove_rec node (hashRing ch) (nodeMap ch)).1).
  { intros p Hp. apply remove_rec_owned_elem; [|exact Hp].
    destruct Hp as [x Hx]. apply Hdom. exists x.
    eapply remove_rec_lookup_sub, Hx. }
  split; [eapply sorted_sublist; [apply remove_rec_sublist | exact Hs]|].
  split; [exact Hdom'|].
  intros p n Hn. apply exists_node_true. cbn [actualNodes].
  assert (n <> node).
  { intros ->. eapply remove_rec_not_owner; [|exact Hn]. apply Hdom'. eauto. }
  rewrite lookup_delete_ne by congruence.
  apply exists_node_true, (Hown p). eapply remove_rec_lookup_sub, Hn.
Qed.

Lemma ring_inv_exec ch c : ring_inv ch -> ring_inv (exec ch c).1.
Proof. destruct c; simpl; auto using ring_inv_AddNode, ring_inv_RemoveNode. Qed.

Lemma ring_inv_fold calls ch :
  ring_inv ch -> ring_inv (fold_left (fun ch c => (exec ch c).1) calls ch).
Proof.
  revert ch. induction calls as [|c calls IH]; intros ch Hinv; simpl; [exact Hinv|].
  apply IH, ring_inv_exec, Hinv.
Qed.

Lemma ring_inv_run R calls : ring_inv (run R calls).
Proof. apply ring_inv_fold, ring_inv_New. Qed.

End Invariant.

(** ** Adding a node and removing it again *)

Section RoundTrip.

Lemma filter_none {A} (P : A -> Prop) `{!forall x, Decision (P x)} (l : list A) :
  Forall (fun x => ~ P x) l -> filter P l = [].
Proof.
  induction 1 as [|x l Hx _ IH]; [reflexivity|].
  rewrite filter_cons, decide_False by assumption. exact IH.
Qed.

Lemma filter_all {A} (P : A -> Prop) `{!forall x, Decision (P x)} (l : list A) :
  Forall P l -> filter P l = l.
Proof.
  induction 1 as [|x l Hx _ IH]; [reflexivity|].
  rewrite filter_cons, decide_True by assumption. congruence.
Qed.

(** The loop of [RemoveNode] on a slice where the positions [ps] are owned
    by [node], occur once each, and no other position is owned by it: the
    positions of [ps] are dropped with their owner entries and nothing else
    changes. *)
Lemma remove_rec_fresh node (ps ring : list Z) (m : gmap Z string) :
  (forall p, p ∈ ring -> p ∈ ps -> m !! p = Some node) ->
  (forall q, q ∈ ring -> q ∉ ps -> map_index m q <> node) ->
  NoDup (filter (fun p => p ∈ ps) ring) ->
  (remove_rec node ring m).1 = filter (fun p => p ∉ ps) ring /\
  forall k, (remove_rec node ring m).2 !! k =
            if decide (k ∈ ring /\ k ∈ ps) then None else m !! k.
Proof.
  revert m. induction ring as [|h ring IH]; intros m Hps Hother Hnd.
  - cbn [remove_rec fst snd]. split; [reflexivity|]. intros k.
    rewrite decide_False; [reflexivity|]. intros [Hk _]. apply elem_of_nil in Hk. exact Hk.
  - cbn [remove_rec]. rewrite filter_cons in Hnd. rewrite filter_cons.
    destruct (decide (h ∈ ps)) as [Hh | Hh].
    + rewrite (decide_False (P := h ∉ ps)) by tauto.
      assert (Hown : map_index m h = node).
      { unfold map_index. rewrite (Hps h) by (auto; left). reflexivity. }
      rewrite (decide_False (P := map_index m h ≠ node)) by (intros Hne; apply Hne, Hown).
      apply NoDup_cons in Hnd as [Hhnot Hnd].
      destruct (IH (delete h m)) as [Hring Hmap].
      * intros p Hp Hpps. rewrite lookup_delete_ne; [apply Hps; [right|]; assumption|].
        intros ->. apply Hhnot, list_elem_of_filter. split; assumption.
      * intros q Hq Hqps. rewrite map_index_delete_ne by congruence.
        apply Hother; [right|]; assumption.
      * exact Hnd.
      * split; [exact Hring|]. intros k. rewrite Hmap.
        destruct (decide (k = h)) as [-> | Hkh].
        -- rewrite lookup_delete_eq.
           rewrite (decide_True (P := h ∈ h :: ring /\ h ∈ ps))
             by (split; [left | assumption]).
           case_decide; reflexivity.
        -- rewrite lookup_delete_ne by congruence.
           apply decide_ext. rewrite elem_of_cons. tauto.
    + rewrite (decide_True (P := h ∉ ps)) by assumption.
      rewrite (decide_True (P := map_index m h ≠ node))
        by (apply Hother; [left | assumption]).
      destruct (IH m) as [Hring Hmap].
      * intros p Hp. apply Hps. right. exact Hp.
      * intros q Hq. apply Hother. right. exact Hq.
      * exact Hnd.
      * cbn [fst snd]. split; [f_equal; exact Hring|]. intros k. rewrite Hmap.
        apply decide_ext. rewrite elem_of_cons. split; [tauto|].
        intros [[-> | Hk] Hkps]; tauto.
Qed.

(** On a ring built by the interface, [RemoveNode] undoes [AddNode] of a
    node whose positions are new and pairwise distinct, provided the node's
    identifier cannot be taken for a missing owner entry. *)
Lemma roundtrip_inv X ch :
  ring_inv ch ->
  exists_node ch X = false ->
  NoDup (positions_of (replicas ch) X) ->
  Forall (fun p => p ∉ hashRing ch) (positions_of (replicas ch) X) ->
  X <> EmptyString \/ all_owned ch ->
  RemoveNode X (AddNode X ch) = ch.
Proof.
  intros (Hs & Hdom & Hown) Hex Hnd Hfresh Hname.
  rewrite Forall_forall in Hfresh.
  rewrite RemoveNode_member by apply AddNode_exists.
  rewrite AddNode_new by exact Hex. cbn [hashRing nodeMap actualNodes replicas].
  set (ps := positions_of (replicas ch) X) in *.
  set (ring' := sort_ascending (hashRing ch ++ ps)).
  assert (Hperm : ring' ≡ₚ hashRing ch ++ ps) by apply sort_ascending_perm.
  assert (Hold : filter (fun p => p ∉ ps) (hashRing ch) = hashRing ch).
  { apply filter_all, Forall_forall. intros q Hq Hqps. exact (Hfresh q Hqps Hq). }
  assert (Hnew : filter (fun p => p ∉ ps) ps = []).
  { apply filter_none, Forall_forall. intros q Hq. tauto. }
  destruct (remove_rec_fresh X ps ring' (insert_all X ps (nodeMap ch))) as [Hring Hmap].
  - intros p _ Hp. rewrite insert_all_lookup, decide_True by exact Hp. reflexivity.
  - intros q Hq Hqps. unfold map_index. rewrite insert_all_lookup, decide_False by exact Hqps.
    assert (Hqring : q ∈ hashRing ch).
    { rewrite Hperm, elem_of_app in Hq. tauto. }
    destruct (nodeMap ch !! q) as [n|] eqn:Hn; simpl.
    + intros ->. apply Hown in Hn. congruence.
    + destruct Hname as [Hname | Hall]; [congruence|].
      destruct (Hall q Hqring) as [n Hn']. congruence.
  - rewrite Hperm, filter_app.
    rewrite (filter_none (fun p => p ∈ ps) (hashRing ch)).
    + rewrite (filter_all (fun p => p ∈ ps) ps); [exact Hnd|].
      apply Forall_forall. auto.
    + apply Forall_forall. intros q Hq Hqps. exact (Hfresh q Hqps Hq).
  - assert (Hring' : (remove_rec X ring' (insert_all X ps (nodeMap ch))).1 = hashRing ch).
    { rewrite Hring. apply sorted_ring_unique.
      - eapply sorted_sublist; [apply sublist_filter | apply sort_ascending_sorted].
      - exact Hs.
      - rewrite Hperm, filter_app, Hold, Hnew, app_nil_r. reflexivity. }
    assert (Hmap' : (remove_rec X ring' (insert_all X ps (nodeMap ch))).2 = nodeMap ch).
    { apply map_eq. intros k. rewrite Hmap, insert_all_lookup.
      destruct (decide (k ∈ ps)) as [Hk | Hk].
      - rewrite decide_True by (split; [rewrite Hperm, elem_of_app; tauto | exact Hk]).
        symmetry. apply eq_None_not_Some. intros Hsome. exact (Hfresh k Hk (Hdom k Hsome)).
      - rewrite decide_False by tauto. reflexivity. }
    rewrite Hring', Hmap'.
    rewrite delete_insert_id by (apply exists_node_false, Hex).
    destruct ch; reflexivity.
Qed.

End RoundTrip.

(** ** Rings without collisions *)

Section CollisionFree.

Lemma collision_free_New R : collision_free (NewConsistentHash R).
Proof.
  split; [constructor|]. split; [constructor|]. split.
  - intros n Hn. discriminate Hn.
  - intros p Hp. apply elem_of_nil in Hp. contradiction.
Qed.

(** Adding a node whose positions are pairwise distinct and not yet on the
    ring keeps the ring free of collisions. *)
Lemma collision_free_AddNode X ch :
  collision_free ch ->
  exists_node ch X = false ->
  NoDup (positions_of (replicas ch) X) ->
  Forall (fun p => p ∉ hashRing ch) (positions_of (replicas ch) X) ->
  collision_free (AddNode X ch).
Proof.
  intros (Hs & Hnd & Hmem & Hpos) Hex Hps Hfresh. rewrite Forall_forall in Hfresh.
  rewrite AddNode_new by exact Hex. unfold collision_free.
  cbn [hashRing nodeMap actualNodes replicas].
  split; [apply sort_ascending_sorted|]. split.
  { rewrite sort_ascending_perm. apply NoDup_app. split; [exact Hnd|].
    split; [|exact Hps]. intros q Hq Hqps. exact (Hfresh q Hqps Hq). }
  split.
  - intros n Hn. apply exists_node_true in Hn. cbn [actualNodes] in Hn.
    apply lookup_insert_is_Some in Hn.
    destruct (decide (X = n)) as [<- | Hne].
    + split; [exact Hps|]. intros p Hp. split.
      * rewrite sort_ascending_perm, elem_of_app. right. exact Hp.
      * rewrite insert_all_lookup, decide_True by exact Hp. reflexivity.
    + destruct Hn as [Heq | [_ Hn]]; [congruence|].
      apply exists_node_true in Hn. destruct (Hmem n Hn) as [Hndn Hposn].
      split; [exact Hndn|]. intros p Hp. destruct (Hposn p Hp) as [Hring Hown].
      split.
      * rewrite sort_ascending_perm, elem_of_app. left. exact Hring.
      * rewrite insert_all_lookup, decide_False; [exact Hown|].
        intros Hpps. exact (Hfresh p Hpps Hring).
  - intros p Hp. rewrite sort_ascending_perm, elem_of_app in Hp.
    destruct Hp as [Hp | Hp].
    + destruct (Hpos p Hp) as (n & Hn & Hpn). exists n. split; [|exact Hpn].
      apply exists_node_true. cbn [actualNodes]. apply lookup_insert_is_Some.
      destruct (decide (X = n)); [left; assumption | right].
      split; [assumption | apply exists_node_true, Hn].
    + exists X. split; [|exact Hp]. apply exists_node_true. cbn [actualNodes].
      rewrite lookup_insert_eq. eauto.
Qed.

Lemma collision_free_owned ch : collision_free ch -> all_owned ch.
Proof.
  intros (_ & _ & Hmem & Hpos) p Hp.
  destruct (Hpos p Hp) as (n & Hn & Hpn). exists n. apply (Hmem n Hn), Hpn.
Qed.

Lemma collision_free_RemoveNode X ch :
  collision_free ch -> collision_free (RemoveNode X ch).
Proof.
  intros Hcf. destruct (exists_node ch X) eqn:Hex;
    [|rewrite RemoveNode_absent by exact Hex; exact Hcf].
  destruct Hcf as (Hs & Hnd & Hmem & Hpos).
  rewrite RemoveNode_member by exact Hex. unfold collision_free.
  cbn [hashRing nodeMap actualNodes replicas].
  pose proof (remove_rec_sublist X (hashRing ch) (nodeMap ch)) as Hsub.
  split; [eapply sorted_sublist; eassumption|].
  split; [eapply sublist_NoDup; eassumption|]. split.
  - intros n Hn. apply exists_node_true in Hn. cbn [actualNodes] in Hn.
    apply lookup_delete_is_Some in Hn as [Hne Hn]. apply exists_node_true in Hn.
    destruct (Hmem n Hn) as [Hndn Hposn]. split; [exact Hndn|].
    intros p Hp. destruct (Hposn p Hp) as [Hring Hown].
    assert (Hidx : map_index (nodeMap ch) p <> X).
    { unfold map_index. rewrite Hown. simpl. congruence. }
    split; [apply remove_rec_elem_keep; assumption|].
    rewrite remove_rec_lookup_keep by exact Hidx. exact Hown.
  - intros p Hp. pose proof (remove_rec_kept_owner X _ _ p Hnd Hp) as Hidx.
    pose proof (elem_of_sublist _ _ _ Hp Hsub) as Hring.
    destruct (Hpos p Hring) as (n & Hn & Hpn). exists n. split; [|exact Hpn].
    apply exists_node_true. cbn [actualNodes]. apply lookup_delete_is_Some.
    split; [|apply exists_node_true, Hn].
    intros <-. apply Hidx. unfold map_index.
    destruct (Hmem X Hn) as [_ HposX]. destruct (HposX p Hpn) as [_ Hown].
    rewrite Hown. reflexivity.
Qed.

End CollisionFree.

(** ** Minimal disruption *)

(** C2. On a ring whose members each hold exactly their [replicas] positions,
    without collisions, [RemoveNode X] changes the result of [GetNode] only
    for the keys that were served by one of the positions of [X]: every
    other key gets the same node before and after the removal. *)
Theorem removal_minimal_disruption (ch : ConsistentHash) (X key : string) :
  collision_free ch ->
  ~ resolves_to_node ch key X ->
  GetNode (RemoveNode X ch) key = GetNode ch key.
Proof.
  intros Hcf Hother. destruct (decide (hashRing ch = [])) as [He | Hne].
  - pose proof (RemoveNode_sublist X ch) as Hsub. rewrite He in Hsub.
    apply sublist_nil_r in Hsub. rewrite !GetNode_empty by assumption. reflexivity.
  - pose proof (collision_free_owned ch Hcf) as Hall.
    destruct Hcf as (Hs & _). apply RemoveNode_keeps_other; try assumption.
    destruct (Hall _ (resolve_elem _ (hashKey key) Hne)) as [n Hn].
    unfold map_index. rewrite Hn. simpl. intros ->. apply Hother. split; assumption.
Qed.

Lemma removal_minimal_disruption_witness :
  collision_free demo_ring /\
  ~ resolves_to_node demo_ring "CellID_12345" "ServerB" /\
  GetNode (RemoveNode "ServerB" demo_ring) "CellID_12345"
  = GetNode demo_ring "CellID_12345".
Proof.
  assert (Hcf : collision_free demo_ring).
  { unfold demo_ring.
    repeat (apply collision_free_AddNode;
            [ | vm_compute; reflexivity
              | apply (bool_decide_unpack _); vm_compute; reflexivity
              | apply (bool_decide_unpack _); vm_compute; reflexivity ]).
    apply collision_free_New. }
  assert (Hown : nodeMap demo_ring !! resolve (hashRing demo_ring) (hashKey "CellID_12345")
                 = Some "ServerC") by (vm_compute; reflexivity).
  assert (Hother : ~ resolves_to_node demo_ring "CellID_12345" "ServerB").
  { intros [_ Hres]. rewrite Hown in Hres. discriminate Hres. }
  split; [exact Hcf|]. split; [exact Hother|].
  exact (removal_minimal_disruption demo_ring "ServerB" "CellID_12345" Hcf Hother).
Defined.

(** ** Round trip *)

Lemma replicas_fold calls ch :
  replicas (fold_left (fun ch c => (exec ch c).1) calls ch) = replicas ch.
Proof.
  revert ch. induction calls as [|c calls IH]; intros ch; simpl; [reflexivity|].
  rewrite IH. destruct c as [node | node | key]; simpl; [| |reflexivity].
  - destruct (exists_node ch node) eqn:Hex.
    + rewrite AddNode_member by exact Hex. reflexivity.
    + rewrite AddNode_new by exact Hex. reflexivity.
  - destruct (exists_node ch node) eqn:Hex.
    + rewrite RemoveNode_member by exact Hex. reflexivity.
    + rewrite RemoveNode_absent by exact Hex. reflexivity.
Qed.

Lemma replicas_run R calls : replicas (run R calls) = R.
Proof. unfold run. rewrite replicas_fold. reflexivity. Qed.

(** C10, as amended.  On every ring built from a fresh ring by calls of the
    interface, for a non-member [X] whose computed positions are pairwise
    distinct and absent from the ring, [AddNode X] followed by
    [RemoveNode X] restores the slice, the owner map and the membership map
    exactly, provided [X] is not the empty string or every position of the
    ring has an owner entry. *)
Theorem add_then_remove_restores (R : Z) (calls : list call) (X : string) :
  exists_node (run R calls) X = false ->
  NoDup (positions_of R X) ->
  Forall (fun p => p ∉ hashRing (run R calls)) (positions_of R X) ->
  X <> EmptyString \/ all_owned (run R calls) ->
  RemoveNode X (AddNode X (run R calls)) = run R calls.
Proof.
  intros Hex Hnd Hfresh Hname.
  apply roundtrip_inv; rewrite ?replicas_run; try assumption.
  apply ring_inv_run.
Qed.

Lemma add_then_remove_restores_witness :
  exists_node (run 3 [Call_AddNode "ServerA"; Call_AddNode "ServerB"]) "ServerC" = false /\
  NoDup (positions_of 3 "ServerC") /\
  Forall (fun p => p ∉ hashRing (run 3 [Call_AddNode "ServerA"; Call_AddNode "ServerB"]))
         (positions_of 3 "ServerC") /\
  "ServerC" <> EmptyString /\
  RemoveNode "ServerC"
    (AddNode "ServerC" (run 3 [Call_AddNode "ServerA"; Call_AddNode "ServerB"]))
  = run 3 [Call_AddNode "ServerA"; Call_AddNode "ServerB"].
Proof.
  assert (Hex : exists_node (run 3 [Call_AddNode "ServerA"; Call_AddNode "ServerB"])
                  "ServerC" = false) by (vm_compute; reflexivity).
  assert (Hnd : NoDup (positions_of 3 "ServerC"))
    by (apply (bool_decide_unpack _); vm_compute; reflexivity).
  assert (Hfresh : Forall (fun p => p ∉ hashRing (run 3 [Call_AddNode "ServerA";
                                                         Call_AddNode "ServerB"]))
                          (positions_of 3 "ServerC"))
    by (apply (bool_decide_unpack _); vm_compute; reflexivity).
  assert (Hname : "ServerC" <> EmptyString) by discriminate.
  split; [exact Hex|]. split; [exact Hnd|]. split; [exact Hfresh|].
  split; [exact Hname|].
  exact (add_then_remove_restores 3 _ "ServerC" Hex Hnd Hfresh (or_introl Hname)).
Defined.

(** C10, as stated, fails on a ring that holds a position without owner
    entry (left by an earlier collision) when the node added and removed has
    the empty string as identifier: its removal also drops the ownerless
    position. *)
Lemma roundtrip_loses_ownerless_position :
  orphaned_ring
  = run 11 [Call_AddNode "A"; Call_AddNode "A1"; Call_RemoveNode "A1"] /\
  exists_node orphaned_ring EmptyString = false /\
  NoDup (positions_of 11 EmptyString) /\
  Forall (fun p => p ∉ hashRing orphaned_ring) (positions_of 11 EmptyString) /\
  RemoveNode EmptyString (AddNode EmptyString orphaned_ring) <> orphaned_ring.
Proof.
  split; [reflexivity|]. split; [vm_compute; reflexivity|].
  split; [apply (bool_decide_unpack _); vm_compute; reflexivity|].
  split; [apply (bool_decide_unpack _); vm_compute; reflexivity|].
  assert (Hafter :
            length (hashRing (RemoveNode EmptyString (AddNode EmptyString orphaned_ring)))
            = 10%nat) by (vm_compute; reflexivity).
  assert (Hbefore : length (hashRing orphaned_ring) = 11%nat)
    by (vm_compute; reflexivity).
  intros Heq. rewrite Heq in Hafter. rewrite Hbefore in Hafter. discriminate Hafter.
Qed.

(** * Further properties of the code *)

(** The ring of [main] has no collision. *)
Lemma demo_ring_collision_free : collision_free demo_ring.
Proof.
  unfold demo_ring.
  repeat (apply collision_free_AddNode;
          [ | vm_compute; reflexivity
            | apply (bool_decide_unpack _); vm_compute; reflexivity
            | apply (bool_decide_unpack _); vm_compute; reflexivity ]).
  apply collision_free_New.
Qed.

(** ** Index safety of the lookup *)

(** X1. Whatever the slice holds, sorted or not, the index that [GetNode]
    passes to [ch.hashRing[idx]] is inside the slice, and the search reads
    the slice at indices inside it only: replacing the value that the model
    yields for an out-of-range read changes nothing.  The lookup therefore
    cannot stop with an index error. *)
Theorem lookup_never_out_of_range (ring : list Z) (hash d : Z) :
  ring <> [] ->
  (select_index ring hash < length ring)%nat /\
  (Search (length ring) (fun i => bool_decide (ring_at ring i >= hash)%Z)
   <= length ring)%nat /\
  Search (length ring) (fun i => bool_decide (nth i ring d >= hash))
  = Search (length ring) (fun i => bool_decide (ring_at ring i >= hash)).
Proof.
  intros Hne. split; [apply select_index_in_range, Hne|].
  split; [apply Search_bounds|].
  apply Search_reads_in_range. intros k Hk. unfold ring_at.
  rewrite (nth_indep ring d 0 Hk). reflexivity.
Qed.

Lemma lookup_never_out_of_range_witness :
  unsorted_slice <> [] /\
  (select_index unsorted_slice 25 < length unsorted_slice)%nat /\
  Search (length unsorted_slice) (fun i => bool_decide (nth i unsorted_slice 99 >= 25))
  = Search (length unsorted_slice)
           (fun i => bool_decide (ring_at unsorted_slice i >= 25)).
Proof.
  assert (Hne : unsorted_slice <> []) by discriminate.
  destruct (lookup_never_out_of_range unsorted_slice 25 99 Hne) as (H1 & _ & H2).
  split; [exact Hne|]. split; [exact H1 | exact H2].
Defined.

(** ** Membership *)

Lemma exists_node_AddNode X Y ch :
  exists_node (AddNode X ch) Y = exists_node ch Y || bool_decide (X = Y).
Proof.
  destruct (exists_node ch X) eqn:Hex.
  - rewrite AddNode_member by exact Hex.
    destruct (decide (X = Y)) as [<- | Hne].
    + rewrite Hex. reflexivity.
    + rewrite (bool_decide_eq_false_2 _ Hne), orb_false_r. reflexivity.
  - rewrite AddNode_new by exact Hex. unfold exists_node at 1. cbn [actualNodes].
    destruct (decide (X = Y)) as [<- | Hne].
    + rewrite (bool_decide_eq_true_2 (X = X) eq_refl), orb_true_r.
      apply bool_decide_eq_true. rewrite lookup_insert_eq. eauto.
    + rewrite (bool_decide_eq_false_2 _ Hne), orb_false_r.
      rewrite lookup_insert_ne by exact Hne. reflexivity.
Qed.

Lemma exists_node_RemoveNode X Y ch :
  exists_node (RemoveNode X ch) Y = exists_node ch Y && negb (bool_decide (X = Y)).
Proof.
  destruct (exists_node ch X) eqn:Hex.
  - rewrite RemoveNode_member by exact Hex. unfold exists_node at 1. cbn [actualNodes].
    destruct (decide (X = Y)) as [<- | Hne].
    + rewrite (bool_decide_eq_true_2 (X = X) eq_refl), andb_false_r.
      apply bool_decide_eq_false. rewrite lookup_delete_eq. intros [x Hx]. discriminate.
    + rewrite (bool_decide_eq_false_2 _ Hne), andb_true_r.
      rewrite lookup_delete_ne by exact Hne. reflexivity.
  - rewrite RemoveNode_absent by exact Hex.
    destruct (decide (X = Y)) as [<- | Hne].
    + rewrite Hex. reflexivity.
    + rewrite (bool_decide_eq_false_2 _ Hne), andb_true_r. reflexivity.
Qed.

(** X2. The membership test after a call: [AddNode X] makes [X] a member
    and [RemoveNode X] makes it a non-member, neither changes the membership
    of another node, and a second [RemoveNode X] in a row changes nothing. *)
Theorem membership_tracks_calls (ch : ConsistentHash) (X Y : string) :
  exists_node (AddNode X ch) Y = exists_node ch Y || bool_decide (X = Y) /\
  exists_node (RemoveNode X ch) Y = exists_node ch Y && negb (bool_decide (X = Y)) /\
  RemoveNode X (RemoveNode X ch) = RemoveNode X ch.
Proof.
  split; [apply exists_node_AddNode|]. split; [apply exists_node_RemoveNode|].
  apply RemoveNode_absent. rewrite exists_node_RemoveNode.
  rewrite (bool_decide_eq_true_2 (X = X) eq_refl). apply andb_false_r.
Qed.

(** ** What every ring built by the interface satisfies *)

Lemma members_true_fold calls ch :
  (forall n b, actualNodes ch !! n = Some b -> b = true) ->
  forall n b,
    actualNodes (fold_left (fun ch c => (exec ch c).1) calls ch) !! n = Some b ->
    b = true.
Proof.
  revert ch. induction calls as [|c calls IH]; intros ch Hch; simpl; [exact Hch|].
  apply IH. destruct c as [node | node | key]; simpl; [| |exact Hch].
  - destruct (exists_node ch node) eqn:Hex.
    + rewrite AddNode_member by exact Hex. exact Hch.
    + rewrite AddNode_new by exact Hex. cbn [actualNodes]. intros n b Hn.
      apply lookup_insert_Some in Hn as [[_ <-] | [_ Hn]]; [reflexivity | eauto].
  - destruct (exists_node ch node) eqn:Hex.
    + rewrite RemoveNode_member by exact Hex. cbn [actualNodes]. intros n b Hn.
      apply lookup_delete_Some in Hn as [_ Hn]. eauto.
    + rewrite RemoveNode_absent by exact Hex. exact Hch.
Qed.

Lemma members_true_run R calls n b :
  actualNodes (run R calls) !! n = Some b -> b = true.
Proof.
  apply members_true_fold. intros n' b' Hn. simpl in Hn.
  rewrite lookup_empty in Hn. discriminate.
Qed.

(** X3. After any sequence of calls on a fresh ring: the replica count is
    the one given at construction, the owner map has entries only for
    positions that are on the slice, every recorded owner is a current
    member, and the membership map stores [true] only. *)
Theorem reachable_ring_is_coherent (R : Z) (calls : list call) :
  replicas (run R calls) = R /\
  (forall p, is_Some (nodeMap (run R calls) !! p) -> p ∈ hashRing (run R calls)) /\
  (forall p n, nodeMap (run R calls) !! p = Some n ->
               exists_node (run R calls) n = true) /\
  (forall n b, actualNodes (run R calls) !! n = Some b -> b = true).
Proof.
  split; [apply replicas_run|].
  destruct (ring_inv_run R calls) as (_ & Hdom & Hown).
  split; [exact Hdom|]. split; [exact Hown|].
  intros n b. apply members_true_run.
Qed.

(** X4. After any sequence of calls on a fresh ring, [GetNode] returns the
    empty string or the identifier of a node that is currently a member;
    it never returns a node that has been removed and not added again. *)
Theorem lookup_returns_member_or_empty (R : Z) (calls : list call) (key : string) :
  GetNode (run R calls) key = EmptyString \/
  exists_node (run R calls) (GetNode (run R calls) key) = true.
Proof.
  destruct (decide (hashRing (run R calls) = [])) as [He | Hne].
  - left. apply GetNode_empty, He.
  - rewrite GetNode_resolve by exact Hne. unfold map_index.
    destruct (nodeMap (run R calls) !! resolve (hashRing (run R calls)) (hashKey key))
      as [n|] eqn:Hn; simpl; [right | left; reflexivity].
    destruct (ring_inv_run R calls) as (_ & _ & Hown). exact (Hown _ _ Hn).
Qed.

(** ** Lookup after an addition *)

(** X5. Adding a node moves keys to the new node only: on a sorted ring,
    after [AddNode X] every key is served by [X] or by the node that served
    it before the call. *)
Theorem addition_minimal_disruption (ch : ConsistentHash) (X key : string) :
  sorted_ring (hashRing ch) ->
  GetNode (AddNode X ch) key = X \/
  GetNode (AddNode X ch) key = GetNode ch key.
Proof.
  intros Hs. destruct (exists_node ch X) eqn:Hex.
  { right. rewrite AddNode_member by exact Hex. reflexivity. }
  rewrite AddNode_new by exact Hex.
  set (ps := positions_of (replicas ch) X).
  set (ring' := sort_ascending (hashRing ch ++ ps)).
  assert (Hperm : ring' ≡ₚ hashRing ch ++ ps) by apply sort_ascending_perm.
  destruct (decide (ring' = [])) as [He | Hne'].
  - right. rewrite GetNode_empty by exact He.
    rewrite He in Hperm. symmetry in Hperm. apply Permutation_nil_r in Hperm.
    apply app_eq_nil in Hperm as [Hring _]. rewrite GetNode_empty by exact Hring.
    reflexivity.
  - rewrite GetNode_resolve by exact Hne'. cbn [hashRing nodeMap].
    pose proof (resolve_elem ring' (hashKey key) Hne') as Hq.
    pose proof (resolve_successor ring' (hashKey key)
                  (sort_ascending_sorted _) Hne') as Hsucc.
    set (q := resolve ring' (hashKey key)) in *.
    unfold map_index. rewrite insert_all_lookup.
    destruct (decide (q ∈ ps)) as [Hqps | Hqps]; [left; reflexivity | right].
    assert (Hqring : q ∈ hashRing ch).
    { rewrite Hperm, elem_of_app in Hq. tauto. }
    assert (Hne : hashRing ch <> []).
    { intros He. rewrite He in Hqring. apply elem_of_nil in Hqring. exact Hqring. }
    rewrite GetNode_resolve by exact Hne.
    assert (Hres : resolve (hashRing ch) (hashKey key) = q).
    { apply (successor_unique (hashRing ch) (hashKey key)).
      - apply resolve_successor; assumption.
      - apply (successor_sub ring'); [|exact Hqring | exact Hsucc].
        intros x Hx. rewrite Hperm, elem_of_app. left. exact Hx. }
    rewrite Hres. reflexivity.
Qed.

Lemma addition_minimal_disruption_witness :
  sorted_ring (hashRing two_node_ring) /\
  (GetNode (AddNode "ServerC" two_node_ring) "CellID_54321" = "ServerC" \/
   GetNode (AddNode "ServerC" two_node_ring) "CellID_54321"
   = GetNode two_node_ring "CellID_54321").
Proof.
  assert (Hs : sorted_ring (hashRing two_node_ring)).
  { unfold sorted_ring. apply (bool_decide_unpack _). vm_compute. reflexivity. }
  split; [exact Hs|].
  exact (addition_minimal_disruption two_node_ring "ServerC" "CellID_54321" Hs).
Defined.

(** ** Keys of one arc *)

(** X6. On a sorted ring, two keys whose hash values are separated by no
    position (including a value beyond the last position and a value at or
    before the first one) are served by the same node. *)
Theorem same_arc_same_node (ch : ConsistentHash) (k1 k2 : string) :
  sorted_ring (hashRing ch) ->
  same_arc (hashRing ch) (hashKey k1) (hashKey k2) ->
  GetNode ch k1 = GetNode ch k2.
Proof.
  intros Hs Harc. destruct (decide (hashRing ch = [])) as [He | Hne].
  { rewrite !GetNode_empty by exact He. reflexivity. }
  rewrite !GetNode_resolve by exact Hne. f_equal.
  apply (successor_unique (hashRing ch) (hashKey k1));
    [apply resolve_successor; assumption|].
  pose proof (resolve_successor _ (hashKey k2) Hs Hne) as Hsucc.
  set (p := resolve (hashRing ch) (hashKey k2)) in *.
  destruct Hsucc as [Hp Hcase]. split; [exact Hp|].
  destruct Harc as [Hsame | [Hbelow Habove]].
  - rewrite Forall_forall in Hsame.
    destruct Hcase as [[Hge Hmin] | [Hall Hmin]].
    + left. split; [apply (Hsame p Hp), Hge|].
      intros q Hq Hq1. apply Hmin; [exact Hq | apply (Hsame q Hq), Hq1].
    + right. split; [|exact Hmin]. intros q Hq.
      specialize (Hall q Hq). pose proof (Hsame q Hq) as Hiff. lia.
  - rewrite Forall_forall in Hbelow, Habove. right. split; [exact Hbelow|].
    destruct Hcase as [[Hge Hmin] | [Hall Hmin]].
    + intros q Hq. apply Hmin; [exact Hq | apply Habove, Hq].
    + specialize (Hall p Hp). specialize (Habove p Hp). lia.
Qed.

Lemma same_arc_same_node_witness :
  sorted_ring (hashRing demo_ring) /\
  same_arc (hashRing demo_ring) (hashKey "CellID_12345") (hashKey "CellID_67890") /\
  GetNode demo_ring "CellID_12345" = GetNode demo_ring "CellID_67890".
Proof.
  assert (Hs : sorted_ring (hashRing demo_ring)).
  { unfold sorted_ring. apply (bool_decide_unpack _). vm_compute. reflexivity. }
  assert (Hring : hashRing demo_ring =
                  [14315101; 442054020; 613571882; 1354652122; 2433757126;
                   2680482646; 3162231355; 3642796969; 3791699533])
    by (vm_compute; reflexivity).
  assert (H1 : hashKey "CellID_12345" = 152041816) by (vm_compute; reflexivity).
  assert (H2 : hashKey "CellID_67890" = 341085917) by (vm_compute; reflexivity).
  assert (Harc : same_arc (hashRing demo_ring)
                          (hashKey "CellID_12345") (hashKey "CellID_67890")).
  { left. rewrite Hring, H1, H2. repeat constructor; lia. }
  split; [exact Hs|]. split; [exact Harc|].
  exact (same_arc_same_node demo_ring "CellID_12345" "CellID_67890" Hs Harc).
Defined.

(** ** Removal and re-addition on a ring without collisions *)

Lemma filter_member_perm (ps ring : list Z) :
  NoDup ring -> NoDup ps -> (forall p, p ∈ ps -> p ∈ ring) ->
  filter (fun p => p ∈ ps) ring ≡ₚ ps.
Proof.
  intros Hring Hps Hsub. apply NoDup_Permutation; [apply NoDup_filter, Hring | exact Hps|].
  intros x. rewrite list_elem_of_filter. split; [tauto | auto].
Qed.

(** The loop of [RemoveNode] on a ring without collisions: the positions of
    the node are dropped, with their owner entries, and nothing else. *)
Lemma remove_rec_collision_free X ch :
  collision_free ch -> exists_node ch X = true ->
  (remove_rec X (hashRing ch) (nodeMap ch)).1
  = filter (fun p => p ∉ positions_of (replicas ch) X) (hashRing ch) /\
  forall k, (remove_rec X (hashRing ch) (nodeMap ch)).2 !! k =
            if decide (k ∈ positions_of (replicas ch) X) then None
            else nodeMap ch !! k.
Proof.
  intros (Hs & Hnd & Hmem & Hpos) Hex. destruct (Hmem X Hex) as [HndX HposX].
  destruct (remove_rec_fresh X (positions_of (replicas ch) X) (hashRing ch) (nodeMap ch))
    as [Hring Hmap].
  - intros p _ Hp. apply HposX, Hp.
  - intros q Hq Hqps. destruct (Hpos q Hq) as (n & Hn & Hqn).
    destruct (Hmem n Hn) as [_ Hposn]. destruct (Hposn q Hqn) as [_ Hown].
    unfold map_index. rewrite Hown. simpl. intros ->. exact (Hqps Hqn).
  - apply NoDup_filter, Hnd.
  - split; [exact Hring|]. intros k. rewrite Hmap. apply decide_ext.
    split; [tauto|]. intros Hk. split; [apply HposX, Hk | exact Hk].
Qed.

(** X7. On a ring without collisions, [RemoveNode X] of a member drops
    exactly the [replicas] positions of [X] from the slice and their entries
    from the owner map, leaves every other position and entry in place, and
    the ring it leaves is again without collisions. *)
Theorem collision_free_removal (ch : ConsistentHash) (X : string) :
  collision_free ch ->
  exists_node ch X = true ->
  collision_free (RemoveNode X ch) /\
  hashRing (RemoveNode X ch)
  = filter (fun p => p ∉ positions_of (replicas ch) X) (hashRing ch) /\
  (length (hashRing (RemoveNode X ch)) + Z.to_nat (replicas ch)
   = length (hashRing ch))%nat /\
  (forall p, nodeMap (RemoveNode X ch) !! p =
             if decide (p ∈ positions_of (replicas ch) X) then None
             else nodeMap ch !! p).
Proof.
  intros Hcf Hex. split; [apply collision_free_RemoveNode, Hcf|].
  destruct (remove_rec_collision_free X ch Hcf Hex) as [Hring Hmap].
  rewrite RemoveNode_member by exact Hex. cbn [hashRing nodeMap].
  split; [exact Hring|]. split; [|exact Hmap].
  destruct Hcf as (_ & Hnd & Hmem & _). destruct (Hmem X Hex) as [HndX HposX].
  rewrite Hring, <- (positions_of_length (replicas ch) X).
  rewrite <- (filter_member_perm (positions_of (replicas ch) X) (hashRing ch))
    by (try assumption; intros p Hp; apply HposX, Hp).
  rewrite Nat.add_comm, <- length_app.
  rewrite (filter_app_complement (fun p => p ∈ positions_of (replicas ch) X)).
  reflexivity.
Qed.

Lemma collision_free_removal_witness :
  collision_free demo_ring /\
  exists_node demo_ring "ServerB" = true /\
  collision_free (RemoveNode "ServerB" demo_ring) /\
  (length (hashRing (RemoveNode "ServerB" demo_ring)) + Z.to_nat (replicas demo_ring)
   = length (hashRing demo_ring))%nat.
Proof.
  assert (Hcf : collision_free demo_ring) by apply demo_ring_collision_free.
  assert (Hex : exists_node demo_ring "ServerB" = true) by (vm_compute; reflexivity).
  destruct (collision_free_removal demo_ring "ServerB" Hcf Hex) as (H1 & _ & H2 & _).
  split; [exact Hcf|]. split; [exact Hex|]. split; [exact H1 | exact H2].
Defined.

(** X8. On a ring without collisions, removing a member (recorded with the
    value [true], as [AddNode] records it) and adding it again restores the
    slice, the owner map and the membership map exactly. *)
Theorem remove_then_add_restores (ch : ConsistentHash) (X : string) :
  collision_free ch ->
  actualNodes ch !! X = Some true ->
  AddNode X (RemoveNode X ch) = ch.
Proof.
  intros Hcf Hmember.
  assert (Hex : exists_node ch X = true) by (apply exists_node_true; eauto).
  destruct (remove_rec_collision_free X ch Hcf Hex) as [Hring Hmap].
  destruct Hcf as (Hs & Hnd & Hmem & Hpos). destruct (Hmem X Hex) as [HndX HposX].
  rewrite AddNode_new.
  2:{ rewrite exists_node_RemoveNode, (bool_decide_eq_true_2 (X = X) eq_refl).
      apply andb_false_r. }
  rewrite RemoveNode_member by exact Hex. cbn [hashRing nodeMap actualNodes replicas].
  set (ps := positions_of (replicas ch) X) in *.
  assert (Hring' : sort_ascending ((remove_rec X (hashRing ch) (nodeMap ch)).1 ++ ps)
                   = hashRing ch).
  { apply sorted_ring_unique; [apply sort_ascending_sorted | exact Hs|].
    rewrite sort_ascending_perm, Hring.
    trans (filter (fun p => p ∉ ps) (hashRing ch)
             ++ filter (fun p => p ∈ ps) (hashRing ch)).
    - apply Permutation_app_head. symmetry.
      apply filter_member_perm; try assumption. intros p Hp. apply HposX, Hp.
    - rewrite Permutation_app_comm.
      apply (filter_app_complement (fun p => p ∈ ps)). }
  assert (Hmap' : insert_all X ps (remove_rec X (hashRing ch) (nodeMap ch)).2
                  = nodeMap ch).
  { apply map_eq. intros k. rewrite insert_all_lookup, Hmap.
    destruct (decide (k ∈ ps)) as [Hk | Hk]; [|reflexivity].
    symmetry. apply HposX, Hk. }
  rewrite Hring', Hmap', insert_delete_eq, (insert_id _ _ _ Hmember).
  destruct ch; reflexivity.
Qed.

Lemma remove_then_add_restores_witness :
  collision_free demo_ring /\
  actualNodes demo_ring !! "ServerB" = Some true /\
  AddNode "ServerB" (RemoveNode "ServerB" demo_ring) = demo_ring.
Proof.
  assert (Hcf : collision_free demo_ring) by apply demo_ring_collision_free.
  assert (Hmember : actualNodes demo_ring !! "ServerB" = Some true)
    by (vm_compute; reflexivity).
  split; [exact Hcf|]. split; [exact Hmember|].
  exact (remove_then_add_restores demo_ring "ServerB" Hcf Hmember).
Defined.

(** X9. A ring without collisions stays so when a non-member is added whose
    computed positions are pairwise distinct and absent from the slice. *)
Theorem collision_free_addition (ch : ConsistentHash) (X : string) :
  collision_free ch ->
  exists_node ch X = false ->
  NoDup (positions_of (replicas ch) X) ->
  Forall (fun p => p ∉ hashRing ch) (positions_of (replicas ch) X) ->
  collision_free (AddNode X ch).
Proof. apply collision_free_AddNode. Qed.

Lemma collision_free_addition_witness :
  collision_free (NewConsistentHash 3) /\
  exists_node (NewConsistentHash 3) "ServerA" = false /\
  NoDup (positions_of (replicas (NewConsistentHash 3)) "ServerA") /\
  Forall (fun p => p ∉ hashRing (NewConsistentHash 3))
         (positions_of (replicas (NewConsistentHash 3)) "ServerA") /\
  collision_free (AddNode "ServerA" (NewConsistentHash 3)).
Proof.
  assert (Hcf : collision_free (NewConsistentHash 3)) by apply collision_free_New.
  assert (Hex : exists_node (NewConsistentHash 3) "ServerA" = false) by reflexivity.
  assert (Hnd : NoDup (positions_of (replicas (NewConsistentHash 3)) "ServerA"))
    by (apply (bool_decide_unpack _); vm_compute; reflexivity).
  assert (Hfresh : Forall (fun p => p ∉ hashRing (NewConsistentHash 3))
                          (positions_of (replicas (NewConsistentHash 3)) "ServerA"))
    by (apply (bool_decide_unpack _); vm_compute; reflexivity).
  split; [exact Hcf|]. split; [exact Hex|]. split; [exact Hnd|]. split; [exact Hfresh|].
  exact (collision_free_addition (NewConsistentHash 3) "ServerA" Hcf Hex Hnd Hfresh).
Defined.

(** ** Order of additions *)

Lemma replicas_AddNode X ch : replicas (AddNode X ch) = replicas ch.
Proof.
  destruct (exists_node ch X) eqn:Hex.
  - rewrite AddNode_member by exact Hex. reflexivity.
  - rewrite AddNode_new by exact Hex. reflexivity.
Qed.

Lemma additions_commute_disjoint (ch : ConsistentHash) (X Y : string) :
  (forall p, p ∈ positions_of (replicas ch) X -> p ∉ positions_of (replicas ch) Y) ->
  AddNode X (AddNode Y ch) = AddNode Y (AddNode X ch).
Proof.
  intros Hdisj. destruct (decide (X = Y)) as [-> | Hne]; [reflexivity|].
  assert (HexX : exists_node (AddNode Y ch) X = exists_node ch X).
  { rewrite exists_node_AddNode, bool_decide_eq_false_2 by congruence.
    apply orb_false_r. }
  assert (HexY : exists_node (AddNode X ch) Y = exists_node ch Y).
  { rewrite exists_node_AddNode, bool_decide_eq_false_2 by congruence.
    apply orb_false_r. }
  destruct (exists_node ch X) eqn:HX.
  { rewrite (AddNode_member X (AddNode Y ch)) by exact HexX.
    rewrite (AddNode_member X ch) by exact HX. reflexivity. }
  destruct (exists_node ch Y) eqn:HY.
  { rewrite (AddNode_member Y (AddNode X ch)) by exact HexY.
    rewrite (AddNode_member Y ch) by exact HY. reflexivity. }
  rewrite (AddNode_new X (AddNode Y ch)) by exact HexX.
  rewrite (AddNode_new Y (AddNode X ch)) by exact HexY.
  rewrite !replicas_AddNode.
  rewrite (AddNode_new X ch) by exact HX. rewrite (AddNode_new Y ch) by exact HY.
  cbn [hashRing nodeMap actualNodes replicas].
  set (px := positions_of (replicas ch) X) in *.
  set (py := positions_of (replicas ch) Y) in *.
  f_equal.
  - apply sorted_ring_unique; try apply sort_ascending_sorted.
    rewrite !sort_ascending_perm. rewrite <- !app_assoc.
    apply Permutation_app_head, Permutation_app_comm.
  - apply map_eq. intros k. rewrite !insert_all_lookup.
    destruct (decide (k ∈ px)) as [Hx | Hx], (decide (k ∈ py)) as [Hy | Hy];
      try reflexivity.
    exfalso. exact (Hdisj k Hx Hy).
  - apply insert_insert_ne. congruence.
Qed.

(** X10. Two nodes whose computed positions do not meet can be added in
    either order: the slice, the owner map and the membership map are the
    same. *)
Theorem additions_commute (ch : ConsistentHash) (X Y : string) :
  (forall p, p ∈ positions_of (replicas ch) X -> p ∉ positions_of (replicas ch) Y) ->
  AddNode X (AddNode Y ch) = AddNode Y (AddNode X ch).
Proof. apply additions_commute_disjoint. Qed.

Lemma additions_commute_witness :
  (forall p, p ∈ positions_of (replicas (NewConsistentHash 3)) "ServerA" ->
             p ∉ positions_of (replicas (NewConsistentHash 3)) "ServerB") /\
  AddNode "ServerA" (AddNode "ServerB" (NewConsistentHash 3))
  = AddNode "ServerB" (AddNode "ServerA" (NewConsistentHash 3)).
Proof.
  assert (Hdisj : forall p,
             p ∈ positions_of (replicas (NewConsistentHash 3)) "ServerA" ->
             p ∉ positions_of (replicas (NewConsistentHash 3)) "ServerB").
  { apply Forall_forall. apply (bool_decide_unpack _). vm_compute. reflexivity. }
  split; [exact Hdisj|].
  exact (additions_commute (NewConsistentHash 3) "ServerA" "ServerB" Hdisj).
Defined.

(** ** Virtual names that coincide *)

Lemma string_app_assoc (a b c : string) : ((a ++ b) ++ c = a ++ (b ++ c))%string.
Proof.
  induction a as [|x a IH]; [reflexivity|].
  change (String x ((a ++ b) ++ c) = String x (a ++ (b ++ c)))%string.
  f_equal. exact IH.
Qed.

Lemma string_app_length (a b : string) :
  String.length (a ++ b) = (String.length a + String.length b)%nat.
Proof.
  induction a as [|x a IH]; [reflexivity|].
  change (S (String.length (a ++ b)) = S (String.length a + String.length b)).
  f_equal. exact IH.
Qed.

Lemma positions_of_elem R node i :
  0 <= i < R -> hashKey (node ++ Itoa i) ∈ positions_of R node.
Proof.
  intros Hi. apply list_elem_of_lookup. exists (Z.to_nat i).
  apply positions_of_lookup, Hi.
Qed.

(** X11. The virtual names are the identifier followed by the index, with
    no separator: with eleven replicas or more, index 10 of a node [n] and
    index 0 of the node named [n] followed by "1" are the same string.  When
    both nodes are added, the slice holds that position twice and the owner
    map records the node added last. *)
Theorem virtual_names_collide (ch : ConsistentHash) (n : string) :
  11 <= replicas ch ->
  exists_node ch n = false ->
  exists_node ch (n ++ "1") = false ->
  hashKey (n ++ "10") ∈ positions_of (replicas ch) n /\
  hashKey (n ++ "10") ∈ positions_of (replicas ch) (n ++ "1") /\
  ~ NoDup (hashRing (AddNode (n ++ "1") (AddNode n ch))) /\
  nodeMap (AddNode (n ++ "1") (AddNode n ch)) !! hashKey (n ++ "10")
  = Some (n ++ "1")%string.
Proof.
  intros HR Hn Hn1.
  assert (Hp : hashKey (n ++ "10") ∈ positions_of (replicas ch) n).
  { change "10"%string with (Itoa 10). apply positions_of_elem. lia. }
  assert (Hp1 : hashKey (n ++ "10") ∈ positions_of (replicas ch) (n ++ "1")).
  { change "10"%string with ("1" ++ Itoa 0)%string.
    rewrite <- string_app_assoc.
    apply positions_of_elem. lia. }
  assert (Hne : n <> (n ++ "1")%string).
  { intros Heq. apply (f_equal String.length) in Heq.
    rewrite string_app_length in Heq. simpl in Heq. lia. }
  assert (Hex : exists_node (AddNode n ch) (n ++ "1") = false).
  { rewrite exists_node_AddNode, Hn1, bool_decide_eq_false_2 by exact Hne.
    reflexivity. }
  split; [exact Hp|]. split; [exact Hp1|].
  rewrite (AddNode_new (n ++ "1")) by exact Hex. rewrite replicas_AddNode.
  rewrite (AddNode_new n) by exact Hn. cbn [hashRing nodeMap].
  split.
  - rewrite !sort_ascending_perm. intros Hnd.
    apply NoDup_app in Hnd as (_ & Hd & _). apply (Hd (hashKey (n ++ "10"))); [|exact Hp1].
    rewrite elem_of_app. right. exact Hp.
  - rewrite insert_all_lookup, decide_True by exact Hp1. reflexivity.
Qed.

Lemma virtual_names_collide_witness :
  11 <= replicas (NewConsistentHash 11) /\
  exists_node (NewConsistentHash 11) "A" = false /\
  exists_node (NewConsistentHash 11) ("A" ++ "1") = false /\
  ~ NoDup (hashRing (AddNode ("A" ++ "1") (AddNode "A" (NewConsistentHash 11)))).
Proof.
  assert (HR : 11 <= replicas (NewConsistentHash 11)) by (simpl; lia).
  assert (Hn : exists_node (NewConsistentHash 11) "A" = false) by reflexivity.
  assert (Hn1 : exists_node (NewConsistentHash 11) ("A" ++ "1") = false) by reflexivity.
  split; [exact HR|]. split; [exact Hn|]. split; [exact Hn1|].
  exact (proj1 (proj2 (proj2 (virtual_names_collide (NewConsistentHash 11) "A" HR Hn Hn1)))).
Defined.

(** ** Removal of the owner of a repeated position *)

Lemma remove_rec_duplicate X ring m p :
  m !! p = Some X -> X <> EmptyString ->
  (2 <= length (filter (fun q => q = p) ring))%nat ->
  p ∈ (remove_rec X ring m).1 /\ (remove_rec X ring m).2 !! p = None.
Proof.
  intros Hown Hname. revert m Hown.
  induction ring as [|h ring IH]; intros m Hown Hcount; [simpl in Hcount; lia|].
  cbn [remove_rec]. rewrite filter_cons in Hcount.
  destruct (decide (h = p)) as [-> | Hne].
  - assert (Hidx : map_index m p = X) by (unfold map_index; rewrite Hown; reflexivity).
    rewrite (decide_False (P := map_index m p ≠ X)) by tauto.
    assert (Hin : p ∈ ring).
    { simpl in Hcount. destruct (filter (fun q => q = p) ring) as [|x rest] eqn:Hf;
        [simpl in Hcount; lia|].
      assert (Hx : x ∈ filter (fun q => q = p) ring) by (rewrite Hf; left).
      apply list_elem_of_filter in Hx as [-> Hx]. exact Hx. }
    split.
    + apply remove_rec_elem_keep; [|exact Hin]. unfold map_index.
      rewrite lookup_delete_eq. simpl. congruence.
    + destruct ((remove_rec X ring (delete p m)).2 !! p) as [x|] eqn:Hx; [|reflexivity].
      apply remove_rec_lookup_sub in Hx. rewrite lookup_delete_eq in Hx. discriminate.
  - destruct (decide (map_index m h ≠ X)) as [Hh | Hh]; cbn [fst snd].
    + destruct (IH m Hown Hcount) as [Hkept Hnone]. split; [right|]; assumption.
    + apply IH; [|exact Hcount]. rewrite lookup_delete_ne by exact Hne. exact Hown.
Qed.

(** X12. When the slice holds a position more than once (two virtual names
    with the same hash) and its owner entry names the member [X], a
    non-empty identifier, [RemoveNode X] drops one copy only and deletes the
    entry: the position stays on the ring without owner, and a key whose
    hash is that position gets the empty string. *)
Theorem removal_orphans_repeated_position (ch : ConsistentHash) (X key : string) :
  sorted_ring (hashRing ch) ->
  exists_node ch X = true ->
  X <> EmptyString ->
  nodeMap ch !! hashKey key = Some X ->
  (2 <= length (filter (fun q => q = hashKey key) (hashRing ch)))%nat ->
  hashKey key ∈ hashRing (RemoveNode X ch) /\
  nodeMap (RemoveNode X ch) !! hashKey key = None /\
  GetNode (RemoveNode X ch) key = EmptyString.
Proof.
  intros Hs Hex Hname Hown Hcount.
  pose proof (RemoveNode_sorted X ch Hs) as Hs'.
  rewrite RemoveNode_member in * by exact Hex. cbn [hashRing nodeMap] in *.
  destruct (remove_rec_duplicate X _ _ _ Hown Hname Hcount) as [Hkept Hnone].
  split; [exact Hkept|]. split; [exact Hnone|].
  set (r := remove_rec X (hashRing ch) (nodeMap ch)) in *.
  assert (Hne : r.1 <> []).
  { intros He. rewrite He in Hkept. apply elem_of_nil in Hkept. exact Hkept. }
  rewrite GetNode_resolve by exact Hne. cbn [hashRing nodeMap].
  assert (Hres : resolve r.1 (hashKey key) = hashKey key).
  { apply (successor_unique r.1 (hashKey key)); [apply resolve_successor; assumption|].
    split; [exact Hkept|]. left. split; [lia|]. intros q _ Hq. exact Hq. }
  rewrite Hres. unfold map_index. rewrite Hnone. reflexivity.
Qed.

Lemma removal_orphans_repeated_position_witness :
  sorted_ring (hashRing collided_ring) /\
  exists_node collided_ring "A1" = true /\
  nodeMap collided_ring !! hashKey "A10" = Some "A1" /\
  (2 <= length (filter (fun q => q = hashKey "A10") (hashRing collided_ring)))%nat /\
  GetNode (RemoveNode "A1" collided_ring) "A10" = EmptyString.
Proof.
  assert (Hs : sorted_ring (hashRing collided_ring)) by apply run_sorted.
  assert (Hex : exists_node collided_ring "A1" = true) by (vm_compute; reflexivity).
  assert (Hname : "A1" <> EmptyString) by discriminate.
  assert (Hown : nodeMap collided_ring !! hashKey "A10" = Some "A1")
    by (vm_compute; reflexivity).
  assert (Hcount : (2 <= length (filter (fun q => q = hashKey "A10")
                                        (hashRing collided_ring)))%nat)
    by (apply (bool_decide_unpack _); vm_compute; reflexivity).
  split; [exact Hs|]. split; [exact Hex|]. split; [exact Hown|]. split; [exact Hcount|].
  exact (proj2 (proj2 (removal_orphans_repeated_position
                         collided_ring "A1" "A10" Hs Hex Hname Hown Hcount))).
Defined.

(** ** Size of a ring without collisions *)

Lemma positions_of_members ch (nodes : list string) :
  collision_free ch -> NoDup nodes ->
  (forall n, n ∈ nodes -> exists_node ch n = true) ->
  exists L : list Z,
    NoDup L /\
    (forall p, p ∈ L <-> exists n, n ∈ nodes /\ p ∈ positions_of (replicas ch) n) /\
    length L = (length nodes * Z.to_nat (replicas ch))%nat.
Proof.
  intros (_ & _ & Hmem & _). induction nodes as [|n nodes IH]; intros Hnd Hall.
  - exists []. split; [constructor|]. split; [|reflexivity].
    intros p. split; [intros Hp; apply elem_of_nil in Hp; contradiction|].
    intros (n & Hn & _). apply elem_of_nil in Hn. contradiction.
  - apply NoDup_cons in Hnd as [Hn Hnd].
    destruct IH as (L & HL & HLelem & HLlen);
      [exact Hnd | intros; apply Hall; right; assumption|].
    destruct (Hmem n (Hall n ltac:(left))) as [Hndn Hposn].
    exists (positions_of (replicas ch) n ++ L). split; [|split].
    + apply NoDup_app. split; [exact Hndn|]. split; [|exact HL].
      intros p Hp HpL. apply HLelem in HpL as (n' & Hn' & Hp').
      destruct (Hmem n' (Hall n' ltac:(right; exact Hn'))) as [_ Hposn'].
      destruct (Hposn p Hp) as [_ Hown]. destruct (Hposn' p Hp') as [_ Hown'].
      rewrite Hown in Hown'. injection Hown' as <-. exact (Hn Hn').
    + intros p. rewrite elem_of_app, HLelem. split.
      * intros [Hp | (n' & Hn' & Hp')]; [exists n; split; [left | exact Hp]|].
        exists n'. split; [right; exact Hn' | exact Hp'].
      * intros (n' & [-> | Hn']%elem_of_cons & Hp'); [left; exact Hp' | right; eauto].
    + rewrite length_app, positions_of_length, HLlen. simpl. lia.
Qed.

(** X13. On a ring without collisions the slice holds exactly [replicas]
    positions for each member: its length is the number of members times
    the replica count (taken as zero when it is negative). *)
Theorem collision_free_size (ch : ConsistentHash) :
  collision_free ch ->
  length (hashRing ch) = (size (actualNodes ch) * Z.to_nat (replicas ch))%nat.
Proof.
  intros Hcf.
  destruct (positions_of_members ch (elements (dom (actualNodes ch))) Hcf)
    as (L & HL & HLelem & HLlen).
  { apply NoDup_elements. }
  { intros n Hn. apply exists_node_true, elem_of_dom, elem_of_elements, Hn. }
  destruct Hcf as (_ & Hnd & Hmem & Hpos).
  rewrite <- (size_dom (D := gset string)). unfold size at 1, set_size. simpl.
  rewrite <- HLlen. apply Permutation_length, NoDup_Permutation; try assumption.
  intros p. rewrite HLelem. split.
  - intros Hp. destruct (Hpos p Hp) as (n & Hn & Hpn). exists n. split; [|exact Hpn].
    apply elem_of_elements, elem_of_dom, exists_node_true, Hn.
  - intros (n & Hn & Hpn).
    apply elem_of_elements, elem_of_dom, exists_node_true in Hn.
    apply (Hmem n Hn), Hpn.
Qed.

Lemma collision_free_size_witness :
  collision_free demo_ring /\
  length (hashRing demo_ring)
  = (size (actualNodes demo_ring) * Z.to_nat (replicas demo_ring))%nat.
Proof.
  assert (Hcf : collision_free demo_ring) by apply demo_ring_collision_free.
  split; [exact Hcf|]. exact (collision_free_size demo_ring Hcf).
Defined.

(** ** Order of removals *)

Lemma replicas_RemoveNode X ch : replicas (RemoveNode X ch) = replicas ch.
Proof.
  destruct (exists_node ch X) eqn:Hex.
  - rewrite RemoveNode_member by exact Hex. reflexivity.
  - rewrite RemoveNode_absent by exact Hex. reflexivity.
Qed.

Lemma RemoveNode_fields X ch :
  collision_free ch -> exists_node ch X = true ->
  hashRing (RemoveNode X ch)
  = filter (fun p => p ∉ positions_of (replicas ch) X) (hashRing ch) /\
  (forall k, nodeMap (RemoveNode X ch) !! k =
             if decide (k ∈ positions_of (replicas ch) X) then None
             else nodeMap ch !! k) /\
  actualNodes (RemoveNode X ch) = delete X (actualNodes ch).
Proof.
  intros Hcf Hex. destruct (remove_rec_collision_free X ch Hcf Hex) as [Hring Hmap].
  rewrite RemoveNode_member by exact Hex. cbn [hashRing nodeMap actualNodes].
  split; [exact Hring|]. split; [exact Hmap | reflexivity].
Qed.

Lemma ConsistentHash_eq ch1 ch2 :
  replicas ch1 = replicas ch2 -> hashRing ch1 = hashRing ch2 ->
  nodeMap ch1 = nodeMap ch2 -> actualNodes ch1 = actualNodes ch2 -> ch1 = ch2.
Proof. destruct ch1, ch2. simpl. intros -> -> -> ->. reflexivity. Qed.

(** X14. On a ring without collisions two removals can be made in either
    order: the slice, the owner map and the membership map are the same. *)
Theorem removals_commute (ch : ConsistentHash) (X Y : string) :
  collision_free ch ->
  RemoveNode X (RemoveNode Y ch) = RemoveNode Y (RemoveNode X ch).
Proof.
  intros Hcf. destruct (decide (X = Y)) as [-> | Hne]; [reflexivity|].
  assert (HexX : exists_node (RemoveNode Y ch) X = exists_node ch X).
  { rewrite exists_node_RemoveNode, bool_decide_eq_false_2 by congruence.
    apply andb_true_r. }
  assert (HexY : exists_node (RemoveNode X ch) Y = exists_node ch Y).
  { rewrite exists_node_RemoveNode, bool_decide_eq_false_2 by congruence.
    apply andb_true_r. }
  destruct (exists_node ch X) eqn:HX.
  2:{ rewrite (RemoveNode_absent X (RemoveNode Y ch)) by exact HexX.
      rewrite (RemoveNode_absent X ch) by exact HX. reflexivity. }
  destruct (exists_node ch Y) eqn:HY.
  2:{ rewrite (RemoveNode_absent Y (RemoveNode X ch)) by exact HexY.
      rewrite (RemoveNode_absent Y ch) by exact HY. reflexivity. }
  destruct (RemoveNode_fields X ch Hcf HX) as (HrX & HmX & HaX).
  destruct (RemoveNode_fields Y ch Hcf HY) as (HrY & HmY & HaY).
  destruct (RemoveNode_fields X (RemoveNode Y ch)
              (collision_free_RemoveNode Y ch Hcf) HexX) as (HrXY & HmXY & HaXY).
  destruct (RemoveNode_fields Y (RemoveNode X ch)
              (collision_free_RemoveNode X ch Hcf) HexY) as (HrYX & HmYX & HaYX).
  rewrite replicas_RemoveNode in HrXY, HmXY, HrYX, HmYX.
  apply ConsistentHash_eq.
  - rewrite !replicas_RemoveNode. reflexivity.
  - rewrite HrXY, HrY, HrYX, HrX, !list_filter_filter.
    apply list_filter_iff. intros p. tauto.
  - apply map_eq. intros k. rewrite HmXY, HmY, HmYX, HmX.
    repeat case_decide; reflexivity.
  - rewrite HaXY, HaY, HaYX, HaX. apply delete_delete.
Qed.

Lemma removals_commute_witness :
  collision_free demo_ring /\
  RemoveNode "ServerA" (RemoveNode "ServerC" demo_ring)
  = RemoveNode "ServerC" (RemoveNode "ServerA" demo_ring).
Proof.
  assert (Hcf : collision_free demo_ring) by apply demo_ring_collision_free.
  split; [exact Hcf|]. exact (removals_commute demo_ring "ServerA" "ServerC" Hcf).
Defined.

(** ** The ring depends on the set of nodes, not on their order *)

Lemma replicas_add_all nodes ch : replicas (add_all nodes ch) = replicas ch.
Proof.
  unfold add_all. revert ch. induction nodes as [|n nodes IH]; intros ch; simpl;
    [reflexivity|]. rewrite IH. apply replicas_AddNode.
Qed.

Lemma pairwise_disjoint_perm R l1 l2 :
  l1 ≡ₚ l2 -> pairwise_disjoint R l1 -> pairwise_disjoint R l2.
Proof.
  unfold pairwise_disjoint. intros Hperm H. rewrite <- Hperm.
  eapply Forall_impl; [exact H|]. intros X HX. rewrite <- Hperm. exact HX.
Qed.

Lemma pairwise_disjoint_tail R n l :
  pairwise_disjoint R (n :: l) -> pairwise_disjoint R l.
Proof.
  unfold pairwise_disjoint. intros H. apply Forall_cons in H as [_ H].
  eapply Forall_impl; [exact H|]. intros X HX. apply Forall_cons in HX as [_ HX].
  exact HX.
Qed.

Lemma add_all_perm l1 l2 :
  l1 ≡ₚ l2 ->
  forall ch, pairwise_disjoint (replicas ch) l1 -> add_all l1 ch = add_all l2 ch.
Proof.
  unfold add_all. induction 1 as [|n l1 l2 Hperm IH|x y l|l1 l2 l3 H12 IH12 H23 IH23];
    intros ch Hdisj; simpl.
  - reflexivity.
  - apply IH. rewrite replicas_AddNode. eapply pairwise_disjoint_tail, Hdisj.
  - f_equal. destruct (decide (x = y)) as [-> | Hne]; [reflexivity|].
    apply additions_commute_disjoint.
    unfold pairwise_disjoint in Hdisj. apply Forall_cons in Hdisj as [_ Hdisj].
    apply Forall_cons in Hdisj as [Hx _]. apply Forall_cons in Hx as [Hxy _].
    destruct Hxy as [Heq | Hxy]; [congruence|]. rewrite Forall_forall in Hxy. exact Hxy.
  - rewrite IH12 by exact Hdisj. apply IH23.
    eapply pairwise_disjoint_perm; [exact H12 | exact Hdisj].
Qed.

(** X15. Absent collisions the ring depends on the set of nodes added, not
    on the order of the calls: adding the nodes of a list whose computed
    positions are pairwise different, in any two orders, gives the same
    slice, owner map and membership map, hence the same lookups. *)
Theorem additions_order_irrelevant (ch : ConsistentHash) (l1 l2 : list string)
                                   (key : string) :
  l1 ≡ₚ l2 ->
  pairwise_disjoint (replicas ch) l1 ->
  add_all l1 ch = add_all l2 ch /\
  GetNode (add_all l1 ch) key = GetNode (add_all l2 ch) key.
Proof.
  intros Hperm Hdisj. rewrite (add_all_perm l1 l2 Hperm ch Hdisj).
  split; reflexivity.
Qed.

Lemma additions_order_irrelevant_witness :
  ["ServerA"; "ServerB"; "ServerC"] ≡ₚ ["ServerC"; "ServerA"; "ServerB"] /\
  pairwise_disjoint (replicas (NewConsistentHash 3)) ["ServerA"; "ServerB"; "ServerC"] /\
  add_all ["ServerA"; "ServerB"; "ServerC"] (NewConsistentHash 3)
  = add_all ["ServerC"; "ServerA"; "ServerB"] (NewConsistentHash 3).
Proof.
  assert (Hperm : ["ServerA"; "ServerB"; "ServerC"] ≡ₚ ["ServerC"; "ServerA"; "ServerB"]).
  { symmetry. apply (Permutation_cons_append ["ServerA"; "ServerB"] "ServerC"). }
  assert (Hdisj : pairwise_disjoint (replicas (NewConsistentHash 3))
                                    ["ServerA"; "ServerB"; "ServerC"]).
  { unfold pairwise_disjoint. apply (bool_decide_unpack _). vm_compute. reflexivity. }
  split; [exact Hperm|]. split; [exact Hdisj|].
  exact (proj1 (additions_order_irrelevant (NewConsistentHash 3) _ _ "CellID_12345"
                  Hperm Hdisj)).
Defined.

(** ** Keys that hit a position *)

Lemma GetNode_exact_hit ch key :
  sorted_ring (hashRing ch) -> hashKey key ∈ hashRing ch ->
  GetNode ch key = map_index (nodeMap ch) (hashKey key).
Proof.
  intros Hs Hin.
  assert (Hne : hashRing ch <> []).
  { intros He. rewrite He in Hin. apply elem_of_nil in Hin. exact Hin. }
  rewrite GetNode_resolve by exact Hne. f_equal.
  apply (successor_unique (hashRing ch) (hashKey key));
    [apply resolve_successor; assumption|].
  split; [exact Hin|]. left. split; [lia|]. intros q _ Hq. exact Hq.
Qed.

(** X16. On a ring without collisions every member is returned for its own
    virtual names: for a member [n] and an index [i] below the replica
    count, the key made of [n] followed by the decimal form of [i] is served
    by [n]. *)
Theorem member_serves_own_names (ch : ConsistentHash) (n : string) (i : Z) :
  collision_free ch ->
  exists_node ch n = true ->
  0 <= i < replicas ch ->
  GetNode ch (n ++ Itoa i) = n.
Proof.
  intros (Hs & _ & Hmem & _) Hex Hi. destruct (Hmem n Hex) as [_ Hpos].
  destruct (Hpos _ (positions_of_elem (replicas ch) n i Hi)) as [Hin Hown].
  rewrite GetNode_exact_hit by assumption. unfold map_index. rewrite Hown. reflexivity.
Qed.

Lemma member_serves_own_names_witness :
  collision_free demo_ring /\
  exists_node demo_ring "ServerB" = true /\
  0 <= 2 < replicas demo_ring /\
  GetNode demo_ring ("ServerB" ++ Itoa 2) = "ServerB".
Proof.
  assert (Hcf : collision_free demo_ring) by apply demo_ring_collision_free.
  assert (Hex : exists_node demo_ring "ServerB" = true) by (vm_compute; reflexivity).
  assert (HR : replicas demo_ring = 3) by (vm_compute; reflexivity).
  assert (Hi : 0 <= 2 < replicas demo_ring) by (rewrite HR; lia).
  split; [exact Hcf|]. split; [exact Hex|]. split; [exact Hi|].
  exact (member_serves_own_names demo_ring "ServerB" 2 Hcf Hex Hi).
Defined.

(** ** A replica count that is not positive *)

Lemma positions_of_nonpositive R node : R <= 0 -> positions_of R node = [].
Proof.
  intros HR. apply length_zero_iff_nil. rewrite positions_of_length. lia.
Qed.

Lemma empty_ring_fold calls ch :
  replicas ch <= 0 -> hashRing ch = [] ->
  hashRing (fold_left (fun ch c => (exec ch c).1) calls ch) = [].
Proof.
  revert ch. induction calls as [|c calls IH]; intros ch HR He; simpl; [exact He|].
  destruct c as [node | node | key]; simpl.
  - apply IH; [rewrite replicas_AddNode; exact HR|].
    destruct (exists_node ch node) eqn:Hex.
    + rewrite AddNode_member by exact Hex. exact He.
    + rewrite AddNode_new by exact Hex. cbn [hashRing].
      rewrite He, positions_of_nonpositive by exact HR. reflexivity.
  - apply IH; [rewrite replicas_RemoveNode; exact HR|].
    pose proof (RemoveNode_sublist node ch) as Hsub. rewrite He in Hsub.
    apply sublist_nil_r, Hsub.
  - apply IH; assumption.
Qed.

(** X17. [NewConsistentHash] accepts any replica count.  With a count that
    is zero or negative, [AddNode] records members but places no position:
    after any sequence of calls the slice is empty and [GetNode] returns the
    empty string for every key. *)
Theorem nonpositive_replicas_never_serve (R : Z) (calls : list call) (key : string) :
  R <= 0 ->
  hashRing (run R calls) = [] /\
  GetNode (run R calls) key = EmptyString.
Proof.
  intros HR.
  assert (He : hashRing (run R calls) = [])
    by (apply empty_ring_fold; [exact HR | reflexivity]).
  split; [exact He | apply GetNode_empty, He].
Qed.

Lemma nonpositive_replicas_never_serve_witness :
  0 <= 0 /\
  exists_node (run 0 [Call_AddNode "ServerA"; Call_AddNode "ServerB"]) "ServerA" = true /\
  GetNode (run 0 [Call_AddNode "ServerA"; Call_AddNode "ServerB"]) "CellID_12345"
  = EmptyString.
Proof.
  assert (HR : 0 <= 0) by lia.
  split; [exact HR|]. split; [vm_compute; reflexivity|].
  exact (proj2 (nonpositive_replicas_never_serve
                  0 [Call_AddNode "ServerA"; Call_AddNode "ServerB"] "CellID_12345" HR)).
Defined.
